(** * chai / genji: the catalog, table and index engine, the value types
      and the UPDATE parser, embedded in Rocq.

    Layout of the development:
    - [types]   : internal/types/types.go (value types and comparability);
    - [document]: values, field paths and documents of the data model;
    - [scanner], [expr], [parser]: tokens, expressions, the parser state,
      the expression parser and internal/sql/parser/update.go;
    - [encoding], [kv], [database]: the order-preserving key codec, the
      key-value engine contract and the catalog / table / index /
      transaction layers;
    - [dsl], [reader]: the query builder of UPDATE, and [get] and [exists]
      of package kv on a reader that can fail;
    - the theorems come last. *)

From Stdlib Require Import ZArith Lia Bool.
From Stdlib Require Import Strings.String Strings.Ascii Strings.Byte.
From stdpp Require Import gmap strings list fin_maps sorting.

Set Warnings "-register-all".
#[local] Open Scope Z_scope.

(** ** internal/types/types.go *)
Module types.

(** [type ValueType uint8]: the code compares value types with [==] on
    the underlying 8-bit number, so a value type is that number. *)
Definition ValueType : Type := Z.

(** [const ( TypeAny ValueType = iota; TypeNull; ... )] *)
Definition TypeAny : ValueType := 0.
Definition TypeNull : ValueType := 1.
Definition TypeBoolean : ValueType := 2.
Definition TypeInteger : ValueType := 3.
Definition TypeDouble : ValueType := 4.
Definition TypeTimestamp : ValueType := 5.
Definition TypeText : ValueType := 6.
Definition TypeBlob : ValueType := 7.
Definition TypeArray : ValueType := 8.
Definition TypeObject : ValueType := 9.

(** [func (t ValueType) String() string]: a [switch] on the nine named
    types, with ["any"] for everything else. *)
Definition String (t : ValueType) : string :=
  if t =? TypeNull then "null"
  else if t =? TypeBoolean then "boolean"
  else if t =? TypeInteger then "integer"
  else if t =? TypeDouble then "double"
  else if t =? TypeTimestamp then "timestamp"
  else if t =? TypeBlob then "blob"
  else if t =? TypeText then "text"
  else if t =? TypeArray then "array"
  else if t =? TypeObject then "object"
  else "any".

(** [return t == TypeInteger || t == TypeDouble] *)
Definition IsNumber (t : ValueType) : bool :=
  (t =? TypeInteger) || (t =? TypeDouble).

(** [return t == TypeTimestamp || t == TypeText] *)
Definition IsTimestampCompatible (t : ValueType) : bool :=
  (t =? TypeTimestamp) || (t =? TypeText).

(** [func (t ValueType) IsComparableWith(other ValueType) bool]: three
    early returns of [true], then [false]. *)
Definition IsComparableWith (t other : ValueType) : bool :=
  if t =? other then true
  else if IsNumber t && IsNumber other then true
  else if IsTimestampCompatible t && IsTimestampCompatible other then true
  else false.

(** [return t == TypeAny] *)
Definition IsAny (t : ValueType) : bool := t =? TypeAny.

End types.

(** ** Bytes as keys of finite maps *)

#[global] Instance byte_eq_dec : EqDecision Byte.byte := Byte.byte_eq_dec.

#[global] Instance byte_countable : Countable Byte.byte :=
  inj_countable Byte.to_N Byte.of_N Byte.of_to_N.

(** ** Results and error kinds *)

(** Go's [(T, error)] pair: either a value or an error. *)
Inductive result (E A : Type) : Type :=
| Ok (a : A)
| Err (e : E).
Arguments Ok {E A} a.
Arguments Err {E A} e.

Definition is_ok {E A} (r : result E A) : bool :=
  match r with Ok _ => true | Err _ => false end.

Definition is_err {E A} (r : result E A) : bool := negb (is_ok r).

(** The error kinds a consumer can tell apart (spec, section 7).  The two
    "not found" errors of objects and arrays are [ErrFieldNotFound] and
    [ErrValueNotFound] of types.go; [ErrKeyNotFound] and
    [ErrKeyAlreadyExists] are the two errors of the key-value engine. *)
Inductive Error : Type :=
| TableNotFound | TableAlreadyExists | ReadOnlyTable
| IndexNotFound | IndexAlreadyExists | CannotDropConstraintIndex
| DocumentNotFound | DuplicateDocument | MissingPrimaryKey
| ErrFieldNotFound | ErrValueNotFound | TypeMismatch | DivisionByZero
| TransactionReadOnly | TransactionClosed
| ErrKeyNotFound | ErrKeyAlreadyExists.

#[global] Instance Error_eq_dec : EqDecision Error.
Proof. solve_decision. Defined.

(** ** The value model *)
Module document.
Import types.

(** Bytes are [Byte.byte]; a byte string is a list of them. *)
Abbreviation bytes := (list Byte.byte).

(** Modelled from the spec: the concrete value types behind the [Value]
    interface of types.go are not in the sources.  Section 3: "A tagged
    union with variants: Null, Bool, Int64, Float64, Timestamp
    (epoch-nanos), Text (UTF-8), Blob, Array (ordered sequence of Value),
    Object (ordered mapping of UTF-8 field to Value)".  A Float64 is kept
    as its 64 IEEE-754 bits, an Int64 and a Timestamp as integers. *)
Inductive Value : Type :=
| VNull
| VBool (b : bool)
| VInt64 (i : Z)
| VFloat64 (bits : Z)
| VTimestamp (nanos : Z)
| VText (s : string)
| VBlob (b : bytes)
| VArray (vs : list Value)
| VObject (fields : list (string * Value)).

(** [Value.Type()]: the tag of each variant, as numbered in types.go. *)
Definition Type_ (v : Value) : ValueType :=
  match v with
  | VNull => TypeNull
  | VBool _ => TypeBoolean
  | VInt64 _ => TypeInteger
  | VFloat64 _ => TypeDouble
  | VTimestamp _ => TypeTimestamp
  | VText _ => TypeText
  | VBlob _ => TypeBlob
  | VArray _ => TypeArray
  | VObject _ => TypeObject
  end.

Section comparison.
(** The order of two values that are comparable; the comparison
    methods only consult it on such values. *)
Variable order : Value -> Value -> comparison.

(** Modelled from the spec: the interface [Value] of types.go declares
    [EQ], [GT], [GTE], [LT] and [LTE], each returning [(bool, error)];
    their bodies are not in the sources.  Section 3: "Comparison across
    incompatible types is a typed error, never silent false"; section 7
    names the error [TypeMismatch]. *)
Definition Compare (a b : Value) : result Error comparison :=
  if IsComparableWith (Type_ a) (Type_ b) then Ok (order a b)
  else Err TypeMismatch.

Definition compareWith (f : comparison -> bool) (a b : Value)
  : result Error bool :=
  match Compare a b with
  | Ok c => Ok (f c)
  | Err e => Err e
  end.

Definition EQ := compareWith (fun c => match c with Eq => true | _ => false end).
Definition GT := compareWith (fun c => match c with Gt => true | _ => false end).
Definition GTE := compareWith (fun c => match c with Lt => false | _ => true end).
Definition LT := compareWith (fun c => match c with Lt => true | _ => false end).
Definition LTE := compareWith (fun c => match c with Gt => false | _ => true end).
End comparison.

(** A document is a root object: its ordered fields. *)
Definition Document : Type := list (string * Value).

(** Section 3, FieldPath: "each segment is either a field name (text) or
    an array index (non-negative integer)". *)
Inductive PathFragment : Type :=
| FieldName (name : string)
| ArrayIndex (i : N).

Definition Path : Type := list PathFragment.

#[global] Instance PathFragment_eq_dec : EqDecision PathFragment.
Proof. solve_decision. Defined.

(** [Object.GetByField]: the first field of that name, or
    [ErrFieldNotFound] (types.go, the contract of the interface). *)
Fixpoint GetByField (field : string) (fs : list (string * Value))
  : result Error Value :=
  match fs with
  | [] => Err ErrFieldNotFound
  | (f, v) :: fs' => if String.eqb f field then Ok v else GetByField field fs'
  end.

(** [Array.GetByIndex]: the value at the index, or [ErrValueNotFound]. *)
Definition GetByIndex (i : N) (vs : list Value) : result Error Value :=
  match vs !! N.to_nat i with
  | Some v => Ok v
  | None => Err ErrValueNotFound
  end.

(** Modelled from the spec: section 3, "Accessed by path; GetByPath
    returns NotFound when any segment misses".  A field name misses on
    anything but an object holding it, an index on anything but an array
    long enough. *)
Fixpoint GetValueByPath (p : Path) (v : Value) : result Error Value :=
  match p with
  | [] => Ok v
  | FieldName f :: p' =>
      match v with
      | VObject fs =>
          match GetByField f fs with
          | Ok v' => GetValueByPath p' v'
          | Err e => Err e
          end
      | _ => Err ErrFieldNotFound
      end
  | ArrayIndex i :: p' =>
      match v with
      | VArray vs =>
          match GetByIndex i vs with
          | Ok v' => GetValueByPath p' v'
          | Err e => Err e
          end
      | _ => Err ErrValueNotFound
      end
  end.

Definition GetByPath (p : Path) (d : Document) : result Error Value :=
  GetValueByPath p (VObject d).

End document.

(** ** Numbers and their decimal text *)
Module strconv.

(** Modelled from the spec: the number conversions of the scanner are not
    in the sources.  A double is the 64 bits of IEEE-754 binary64; reading
    a decimal rounds to the nearest double (ties to even). *)

Definition digitVal (c : ascii) : Z := Z.of_nat (nat_of_ascii c) - 48.

(** The number written by a run of decimal digits. *)
Definition ParseDigits (l : list ascii) : Z :=
  fold_left (fun acc c => 10 * acc + digitVal c) l 0.

Definition digitChar (d : Z) : ascii := ascii_of_nat (Z.to_nat (48 + d)).

Fixpoint digitsAux (fuel : nat) (n : Z) (acc : list ascii) : list ascii :=
  match fuel with
  | O => acc
  | S fuel' =>
      if n <? 10 then digitChar n :: acc
      else digitsAux fuel' (n / 10) (digitChar (n mod 10) :: acc)
  end.

(** The decimal digits of [n >= 0]. *)
Definition Digits (n : Z) : list ascii :=
  digitsAux (S (Z.to_nat (Z.log2 n))) n [].

(** [strconv.FormatInt(n, 10)] *)
Definition FormatInt (n : Z) : string :=
  if n <? 0 then String "-" (string_of_list_ascii (Digits (- n)))
  else string_of_list_ascii (Digits n).

(** [num / den] rounded to the nearest integer, ties to even. *)
Definition roundDiv (num den : Z) : Z :=
  let q := num / den in
  let r := num mod den in
  if (den <? 2 * r) || ((den =? 2 * r) && Z.odd q) then q + 1 else q.

(** [m * 10^e10] as a fraction. *)
Definition decimalFraction (m e10 : Z) : Z * Z :=
  if 0 <=? e10 then (m * 10 ^ e10, 1) else (m, 10 ^ (- e10)).

(** [num / (den * 2^e)] as a fraction. *)
Definition scale2 (num den e : Z) : Z * Z :=
  if 0 <=? e then (num, den * 2 ^ e) else (num * 2 ^ (- e), den).

(** The bits of the double nearest to [m * 10^e10], for [m >= 0]. *)
Definition DecimalToBits (m e10 : Z) : Z :=
  if m <=? 0 then 0
  else
    let '(n, d) := decimalFraction m e10 in
    let b := Z.log2 n - Z.log2 d in
    let '(n1, d1) := scale2 n d b in
    let l := if n1 <? d1 then b - 1 else b in
    let e := Z.max (l - 52) (-1074) in
    let '(n2, d2) := scale2 n d e in
    let q := roundDiv n2 d2 in
    let '(q, e) := if 2 ^ 53 <=? q then (q / 2, e + 1) else (q, e) in
    if q <? 2 ^ 52 then q
    else if 2047 <=? e + 1075 then 2047 * 2 ^ 52
    else (e + 1075) * 2 ^ 52 + (q - 2 ^ 52).

Fixpoint splitDot (l : list ascii) : list ascii * list ascii :=
  match l with
  | [] => ([], [])
  | c :: l' =>
      if (nat_of_ascii c =? 46)%nat then ([], l')
      else let '(a, b) := splitDot l' in (c :: a, b)
  end.

(** [strconv.ParseFloat] on a literal [digits.digits]. *)
Definition ParseFloat (l : list ascii) : Z :=
  let '(ip, fp) := splitDot l in
  DecimalToBits (ParseDigits (ip ++ fp)) (- Z.of_nat (length fp)).

End strconv.

(** ** Tokens and the scanner *)
Module scanner.

(** Modelled from the spec: package [scanner] is not in the sources;
    update.go names its tokens [SET], [UNSET], [COMMA], [EQ] and [WHERE],
    and the expression forms of section 4.7 (literals, paths, [pk()],
    [CAST(expr AS type)], unary, comparison, arithmetic, logical,
    membership, [IS [NOT] NULL]) fix the others. *)
Inductive Token : Type :=
| ILLEGAL | EOF | WS
| IDENT | INTEGER | NUMBER | STRING | TRUE | FALSE | NULL
| EQ | NEQ | LT | LTE | GT | GTE
| ADD | SUB | MUL | DIV | MOD | BITWISEAND | BITWISEOR | BITWISEXOR
| AND | OR | NOT | IN | IS | BETWEEN
| LPAREN | RPAREN | LBRACKET | RBRACKET | LSBRACKET | RSBRACKET
| COMMA | COLON | DOT | SEMICOLON
| UPDATE | SET | UNSET | WHERE | CAST | AS.

#[global] Instance Token_eq_dec : EqDecision Token.
Proof. solve_decision. Defined.

(** [scanner.Pos]: line and character of a token, both from 0. *)
Record Pos : Type := mkPos { Line : nat; Char : nat }.

(** What [Scan] returns: the token, its position and its literal. *)
Record Item : Type := mkItem { tok : Token; pos : Pos; lit : string }.

Definition isWhitespace (c : ascii) : bool :=
  let n := nat_of_ascii c in
  ((n =? 32) || (n =? 9) || (n =? 10) || (n =? 13))%nat.

Definition isDigit (c : ascii) : bool :=
  let n := nat_of_ascii c in ((48 <=? n) && (n <=? 57))%nat.

Definition isLetter (c : ascii) : bool :=
  let n := nat_of_ascii c in
  (((65 <=? n) && (n <=? 90)) || ((97 <=? n) && (n <=? 122)))%nat.

Definition isIdentFirstChar (c : ascii) : bool :=
  isLetter c || (nat_of_ascii c =? 95)%nat.

Definition isIdentChar (c : ascii) : bool :=
  isLetter c || isDigit c || (nat_of_ascii c =? 95)%nat.

Definition upper (c : ascii) : ascii :=
  let n := nat_of_ascii c in
  if ((97 <=? n) && (n <=? 122))%nat then ascii_of_nat (n - 32) else c.

(** The longest run of characters satisfying [p], and what follows. *)
Fixpoint span (p : ascii -> bool) (l : list ascii)
  : list ascii * list ascii :=
  match l with
  | c :: l' =>
      if p c then let '(a, b) := span p l' in (c :: a, b) else ([], l)
  | [] => ([], [])
  end.

(** Keywords are matched without regard to case. *)
Definition keywords : list (string * Token) :=
  [ ("TRUE", TRUE); ("FALSE", FALSE); ("NULL", NULL);
    ("AND", AND); ("OR", OR); ("NOT", NOT); ("IN", IN); ("IS", IS);
    ("BETWEEN", BETWEEN); ("UPDATE", UPDATE); ("SET", SET);
    ("UNSET", UNSET); ("WHERE", WHERE); ("CAST", CAST); ("AS", AS) ]%string.

Fixpoint lookupKeyword (s : string) (ks : list (string * Token))
  : option Token :=
  match ks with
  | [] => None
  | (k, t) :: ks' => if String.eqb k s then Some t else lookupKeyword s ks'
  end.

Definition str (l : list ascii) : string := string_of_list_ascii l.

(** The body of a double-quoted string up to the closing quote; a
    backslash keeps the next character. [None]: no closing quote. *)
Fixpoint scanString (l : list ascii) : option (list ascii * list ascii) :=
  match l with
  | [] => None
  | c :: l' =>
      if (nat_of_ascii c =? 34)%nat then Some ([], l')
      else if (nat_of_ascii c =? 92)%nat then
        match l' with
        | c' :: l'' =>
            match scanString l'' with
            | Some (a, b) => Some (c' :: a, b)
            | None => None
            end
        | [] => None
        end
      else
        match scanString l' with
        | Some (a, b) => Some (c :: a, b)
        | None => None
        end
  end.

(** One- and two-character operators and punctuation. *)
Definition scanSymbol (c : ascii) (l : list ascii)
  : Token * list ascii * list ascii :=
  let two (t2 : Token) (c2 : nat) (t1 : Token) :=
    match l with
    | d :: l' =>
        if (nat_of_ascii d =? c2)%nat then (t2, [c; d], l') else (t1, [c], l)
    | [] => (t1, [c], l)
    end in
  let one (t : Token) := (t, [c], l) in
  match nat_of_ascii c with
  | 61%nat => one EQ
  | 33%nat => two NEQ 61%nat ILLEGAL
  | 60%nat => two LTE 61%nat LT
  | 62%nat => two GTE 61%nat GT
  | 43%nat => one ADD
  | 45%nat => one SUB
  | 42%nat => one MUL
  | 47%nat => one DIV
  | 37%nat => one MOD
  | 38%nat => one BITWISEAND
  | 124%nat => one BITWISEOR
  | 94%nat => one BITWISEXOR
  | 40%nat => one LPAREN
  | 41%nat => one RPAREN
  | 123%nat => one LBRACKET
  | 125%nat => one RBRACKET
  | 91%nat => one LSBRACKET
  | 93%nat => one RSBRACKET
  | 44%nat => one COMMA
  | 58%nat => one COLON
  | 46%nat => one DOT
  | 59%nat => one SEMICOLON
  | _ => one ILLEGAL
  end.

(** The next token of the input: the token, its literal, the text it
    spans (for positions) and the rest of the input. *)
Definition scanToken (prev : Token) (c : ascii) (l : list ascii)
  : Token * string * list ascii * list ascii :=
  if isWhitespace c then
    let '(a, b) := span isWhitespace l in (WS, str (c :: a), c :: a, b)
  else if isIdentFirstChar c then
    let '(a, b) := span isIdentChar l in
    let s := str (c :: a) in
    match lookupKeyword (str (List.map upper (c :: a))) keywords with
    | Some t => (t, s, c :: a, b)
    | None => (IDENT, s, c :: a, b)
    end
  else if isDigit c then
    let '(a, b) := span isDigit l in
    (* after a dot the digits are a path segment, never a fraction *)
    match prev, b with
    | DOT, _ => (INTEGER, str (c :: a), c :: a, b)
    | _, dot :: d :: b' =>
        if (nat_of_ascii dot =? 46)%nat && isDigit d then
          let '(f, b'') := span isDigit b' in
          let t := c :: a ++ dot :: d :: f in
          (NUMBER, str t, t, b'')
        else (INTEGER, str (c :: a), c :: a, b)
    | _, _ => (INTEGER, str (c :: a), c :: a, b)
    end
  else if (nat_of_ascii c =? 34)%nat then
    match scanString l with
    | Some (a, b) =>
        (STRING, str a, firstn (length (c :: l) - length b) (c :: l), b)
    | None => (ILLEGAL, str (c :: l), c :: l, [])
    end
  else
    let '(t, s, b) := scanSymbol c l in (t, str s, s, b).

(** The position after the text [s] that started at [p]. *)
Fixpoint advance (p : Pos) (s : list ascii) : Pos :=
  match s with
  | [] => p
  | c :: s' =>
      if (nat_of_ascii c =? 10)%nat then advance (mkPos (S (Line p)) 0) s'
      else advance (mkPos (Line p) (S (Char p))) s'
  end.

(** All the tokens of the input; [fuel] bounds the number of tokens
    and the length of the input is always enough. *)
Fixpoint scanAll (fuel : nat) (prev : Token) (p : Pos) (l : list ascii)
  : list Item :=
  match fuel, l with
  | _, [] => []
  | O, _ => []
  | S fuel', c :: l' =>
      let '(t, s, span_, rest) := scanToken prev c l' in
      mkItem t p s :: scanAll fuel' t (advance p span_) rest
  end.

Definition Scan (s : string) : list Item :=
  let l := list_ascii_of_string s in
  scanAll (length l) EOF (mkPos 0 0) l.

(** [scanner.Tokstr(tok, lit)]: the literal when there is one. *)
Definition Tokstr (t : Token) (l : string) : string :=
  match t with
  | EOF => "EOF"%string
  | _ => l
  end.

End scanner.

(** ** Expressions and their text *)
Module expr.
Import document.
Abbreviation ValueType := types.ValueType.

(** Modelled from the spec: package [expr] is not in the sources.
    Section 4.7: "Expressions are a sum type over: literal value, path
    reference, function call (pk(), CAST(expr AS type)), unary (NOT, -),
    binary comparison (=, !=, >, >=, <, <=), arithmetic
    (+ - * / % & | ^), logical (AND, OR), membership (IN, BETWEEN a AND
    b), IS [NOT] NULL". *)
Inductive Operator : Type :=
| OpEq | OpNeq | OpGt | OpGte | OpLt | OpLte
| OpAdd | OpSub | OpMul | OpDiv | OpMod
| OpBitwiseAnd | OpBitwiseOr | OpBitwiseXor
| OpAnd | OpOr | OpIn.

Inductive Expr : Type :=
| LiteralValue (v : Value)
| PathExpr (p : Path)
| PKFunc
| CastFunc (e : Expr) (t : ValueType)
| NotOp (e : Expr)
| NegOp (e : Expr)
| BinaryOp (op : Operator) (a b : Expr)
| BetweenOp (x a b : Expr)
| IsNullOp (e : Expr)
| IsNotNullOp (e : Expr).

(** The value types [ValueType.String] of types.go gives a name of their
    own. *)
Definition namedTypes : list ValueType :=
  [ types.TypeNull; types.TypeBoolean; types.TypeInteger; types.TypeDouble;
    types.TypeTimestamp; types.TypeText; types.TypeBlob; types.TypeArray;
    types.TypeObject ].

(** Modelled from the spec: how the parser reads the type of
    [CAST(expr AS type)] is not in the sources.  The type is the one that
    [ValueType.String] of types.go names so. *)
Definition castTypeOf (s : string) : option ValueType :=
  List.find (fun t => String.eqb (types.String t) s) namedTypes.

Fixpoint join (sep : string) (l : list string) : string :=
  match l with
  | [] => ""
  | [s] => s
  | s :: l' => s +:+ sep +:+ join sep l'
  end.

Definition FragmentString (f : PathFragment) : string :=
  match f with
  | FieldName n => n
  | ArrayIndex i => strconv.FormatInt (Z.of_N i)
  end.

(** Section 3: "Textual form uses . between segments". *)
Definition PathString (p : Path) : string :=
  join "." (List.map FragmentString p).

End expr.

(** ** internal/query: the statement built by the UPDATE parser *)
Module query.
Import document.

(** [query.UpdateSetPair{Path: path, E: expr}] *)
Record UpdateSetPair : Type := mkUpdateSetPair {
  Path_ : Path;
  E : expr.Expr
}.

(** The fields of [query.UpdateStmt] that update.go fills:
    [SetPairs] holds paths, [UnsetFields] holds plain strings. *)
Record UpdateStmt : Type := mkUpdateStmt {
  TableName : string;
  SetPairs : list UpdateSetPair;
  UnsetFields : list string;
  WhereExpr : option expr.Expr
}.

End query.

(** ** internal/sql/parser *)
Module parser.
Import document scanner expr.

(** [newParseError(found, expected, pos)] *)
Record ParseError : Type := newParseError {
  Found : string;
  Expected : list string;
  Pos_ : Pos
}.

(** A parse fails with a [*ParseError]; [OutOfFuel] is the model's own:
    a loop was cut before it ended (never with the fuel the entry points
    give, see the theorems). *)
Inductive Failure : Type :=
| SyntaxError (e : ParseError)
| OutOfFuel.

(** The parser over its buffered scanner: the tokens read so far (the
    last one first) and the tokens still to read. *)
Record Parser : Type := mkParser {
  read : list Item;
  unread : list Item
}.

(** [parser.NewParser(strings.NewReader(s))] *)
Definition NewParser (s : string) : Parser := mkParser [] (scanner.Scan s).

(** Parser methods return a value or an error and move the parser. *)
Definition M (A : Type) : Type := Parser -> result Failure A * Parser.

Definition ret {A} (a : A) : M A := fun p => (Ok a, p).
Definition fail {A} (e : Failure) : M A := fun p => (Err e, p).
Definition bind {A B} (m : M A) (k : A -> M B) : M B :=
  fun p => match m p with
           | (Ok a, p') => k a p'
           | (Err e, p') => (Err e, p')
           end.

#[global] Instance parser_ret : MRet M := @ret.
#[global] Instance parser_bind : MBind M := fun A B k m => bind m k.

Definition syntaxError {A} (found : string) (expected : list string)
  (ps : Pos) : M A :=
  fail (SyntaxError (newParseError found expected ps)).

(** The error is cast to a parse error, its [Expected] is overwritten and
    it is returned: [pErr.Expected = expected; return nil, pErr]. *)
Definition withExpected {A} (expected : list string) (m : M A) : M A :=
  fun p => match m p with
           | (Err (SyntaxError e), p') =>
               (Err (SyntaxError (newParseError (Found e) expected (Pos_ e))),
                p')
           | r => r
           end.

(** Fuel for a loop over the tokens still to read: one turn a token
    and one more to see the end. *)
Definition withFuel {A} (m : nat -> M A) : M A :=
  fun p => m (S (length (unread p))) p.

(** The position after the last token read, for the end of the input. *)
Definition endPos (rd : list Item) : Pos :=
  match rd with
  | i :: _ => advance (pos i) (list_ascii_of_string (lit i))
  | [] => mkPos 0 0
  end.

(** [p.Scan()]: the next token, [EOF] at the end of the input. *)
Definition Scan : M Item :=
  fun p => match unread p with
           | i :: un => (Ok i, mkParser (i :: read p) un)
           | [] =>
               let i := mkItem EOF (endPos (read p)) "" in
               (Ok i, mkParser (i :: read p) [])
           end.

(** [p.Unscan()]: the last token read will be read again. *)
Definition Unscan : M unit :=
  fun p => match read p with
           | i :: rd =>
               (Ok tt, mkParser rd (match tok i with
                                    | EOF => unread p
                                    | _ => i :: unread p
                                    end))
           | [] => (Ok tt, p)
           end.

Fixpoint skipWhitespace (rd un : list Item) : Item * Parser :=
  match un with
  | i :: un' =>
      match tok i with
      | WS => skipWhitespace (i :: rd) un'
      | _ => (i, mkParser (i :: rd) un')
      end
  | [] => let i := mkItem EOF (endPos rd) "" in (i, mkParser (i :: rd) [])
  end.

(** [p.ScanIgnoreWhitespace()]: the next token that is not white space. *)
Definition ScanIgnoreWhitespace : M Item :=
  fun p => let '(i, p') := skipWhitespace (read p) (unread p) in (Ok i, p').

(** [p.parseIdent()]: the next token must be an identifier. *)
Definition parseIdent : M string :=
  i ← ScanIgnoreWhitespace;
  match tok i with
  | IDENT => ret (lit i)
  | _ => syntaxError (Tokstr (tok i) (lit i)) ["identifier"%string] (pos i)
  end.

(** [p.parseTokens(t)]: the next token must be [t]. *)
Definition parseTokens (t : Token) (name : string) : M unit :=
  i ← ScanIgnoreWhitespace;
  if decide (tok i = t) then ret tt
  else syntaxError (Tokstr (tok i) (lit i)) [name] (pos i).

(** The segments after the first: [. name] or [. index], read without
    skipping white space. *)
Fixpoint parsePathRest (fuel : nat) (acc : Path) : M Path :=
  match fuel with
  | O => fail OutOfFuel
  | S fuel' =>
      i ← Scan;
      match tok i with
      | DOT =>
          j ← Scan;
          match tok j with
          | IDENT => parsePathRest fuel' (acc ++ [FieldName (lit j)])
          | INTEGER =>
              parsePathRest fuel'
                (acc ++ [ArrayIndex
                           (Z.to_N (strconv.ParseDigits
                                      (list_ascii_of_string (lit j))))])
          | _ => syntaxError (Tokstr (tok j) (lit j))
                   ["identifier"; "integer"]%string (pos j)
          end
      | _ => _ ← Unscan; ret acc
      end
  end.

(** Modelled from the spec: [p.parsePath()] is not in the sources.
    Section 3: "An ordered sequence of segments; each segment is either a
    field name (text) or an array index (non-negative integer). Textual
    form uses . between segments". *)
Definition parsePath : M Path :=
  first ← parseIdent;
  withFuel (fun fuel => parsePathRest fuel [FieldName first]).

(** *** Literals *)

Definition maxInt64 : Z := 2 ^ 63 - 1.

(** An integer literal is an Int64 when it fits and a Float64 when it
    does not. *)
Definition integerValue (neg : bool) (l : string) : Value :=
  let n := strconv.ParseDigits (list_ascii_of_string l) in
  if neg then
    if n <=? maxInt64 + 1 then VInt64 (- n)
    else VFloat64 (2 ^ 63 + strconv.DecimalToBits n 0)
  else
    if n <=? maxInt64 then VInt64 n
    else VFloat64 (strconv.DecimalToBits n 0).

Definition numberValue (neg : bool) (l : string) : Value :=
  let b := strconv.ParseFloat (list_ascii_of_string l) in
  VFloat64 (if neg then 2 ^ 63 + b else b).

(** A literal value: a number, a text, [true], [false], [NULL], an array
    [[v, ...]] or an object [{"k": v, ...}] of literal values. *)
Fixpoint parseValue (fuel : nat) : M Value :=
  match fuel with
  | O => fail OutOfFuel
  | S fuel' =>
      i ← ScanIgnoreWhitespace;
      match tok i with
      | INTEGER => ret (integerValue false (lit i))
      | NUMBER => ret (numberValue false (lit i))
      | SUB =>
          j ← Scan;
          match tok j with
          | INTEGER => ret (integerValue true (lit j))
          | NUMBER => ret (numberValue true (lit j))
          | _ => syntaxError (Tokstr (tok j) (lit j)) ["number"%string] (pos j)
          end
      | STRING => ret (VText (lit i))
      | TRUE => ret (VBool true)
      | FALSE => ret (VBool false)
      | NULL => ret VNull
      | LSBRACKET =>
          j ← ScanIgnoreWhitespace;
          match tok j with
          | RSBRACKET => ret (VArray [])
          | _ => _ ← Unscan; vs ← parseValues fuel' RSBRACKET []; ret (VArray vs)
          end
      | LBRACKET =>
          j ← ScanIgnoreWhitespace;
          match tok j with
          | RBRACKET => ret (VObject [])
          | _ => _ ← Unscan; fs ← parseFields fuel' []; ret (VObject fs)
          end
      | _ => syntaxError (Tokstr (tok i) (lit i)) ["literal"%string] (pos i)
      end
  end
with parseValues (fuel : nat) (close : Token) (acc : list Value)
  : M (list Value) :=
  match fuel with
  | O => fail OutOfFuel
  | S fuel' =>
      v ← parseValue fuel';
      i ← ScanIgnoreWhitespace;
      if decide (tok i = COMMA) then parseValues fuel' close (acc ++ [v])
      else if decide (tok i = close) then ret (acc ++ [v])
      else syntaxError (Tokstr (tok i) (lit i)) [","%string] (pos i)
  end
with parseFields (fuel : nat) (acc : list (string * Value))
  : M (list (string * Value)) :=
  match fuel with
  | O => fail OutOfFuel
  | S fuel' =>
      k ← ScanIgnoreWhitespace;
      match tok k with
      | STRING | IDENT =>
          _ ← parseTokens COLON ":";
          v ← parseValue fuel';
          i ← ScanIgnoreWhitespace;
          match tok i with
          | COMMA => parseFields fuel' (acc ++ [(lit k, v)])
          | RBRACKET => ret (acc ++ [(lit k, v)])
          | _ => syntaxError (Tokstr (tok i) (lit i)) [","%string] (pos i)
          end
      | _ => syntaxError (Tokstr (tok k) (lit k)) ["field"%string] (pos k)
      end
  end.

(** *** Operators *)

Definition binaryOperator (t : Token) : option Operator :=
  match t with
  | EQ => Some OpEq | NEQ => Some OpNeq
  | GT => Some OpGt | GTE => Some OpGte
  | LT => Some OpLt | LTE => Some OpLte
  | ADD => Some OpAdd | SUB => Some OpSub
  | MUL => Some OpMul | DIV => Some OpDiv | MOD => Some OpMod
  | BITWISEAND => Some OpBitwiseAnd | BITWISEOR => Some OpBitwiseOr
  | BITWISEXOR => Some OpBitwiseXor
  | AND => Some OpAnd | OR => Some OpOr | IN => Some OpIn
  | _ => None
  end.

(** The binding strength of the operator tokens, 0 for the others. *)
Definition Precedence (t : Token) : nat :=
  match t with
  | OR => 1
  | AND => 2
  | EQ | NEQ | LT | LTE | GT | GTE | IN | IS | BETWEEN => 4
  | BITWISEOR => 5
  | BITWISEXOR => 6
  | BITWISEAND => 7
  | ADD | SUB => 8
  | MUL | DIV | MOD => 9
  | _ => 0
  end%nat.

(** *** Expressions *)

(** [parseUnaryExpr]: an operand; [parseExprPrec]: an operand and the
    operators that bind at least as strongly as [prec];
    [parseOperators]: those operators, after the operand [lhs]. *)
Fixpoint parseUnaryExpr (fuel : nat) : M Expr :=
  match fuel with
  | O => fail OutOfFuel
  | S fuel' =>
      i ← ScanIgnoreWhitespace;
      match tok i with
      | LPAREN =>
          e ← parseExprPrec fuel' 1;
          j ← ScanIgnoreWhitespace;
          match tok j with
          | RPAREN => ret e
          | COMMA =>
              (* a list of literals between parentheses *)
              match e with
              | LiteralValue v =>
                  vs ← parseValues fuel' RPAREN [v];
                  ret (LiteralValue (VArray vs))
              | _ => syntaxError (Tokstr (tok j) (lit j)) [")"%string] (pos j)
              end
          | _ => syntaxError (Tokstr (tok j) (lit j)) [")"%string] (pos j)
          end
      | NOT => e ← parseUnaryExpr fuel'; ret (NotOp e)
      | SUB => e ← parseUnaryExpr fuel'; ret (NegOp e)
      | CAST =>
          _ ← parseTokens LPAREN "(";
          e ← parseExprPrec fuel' 1;
          _ ← parseTokens AS "AS";
          t ← parseIdent;
          match castTypeOf t with
          | Some ty => _ ← parseTokens RPAREN ")"; ret (CastFunc e ty)
          | None => syntaxError t ["type"%string] (pos i)
          end
      | IDENT =>
          j ← Scan;
          match tok j with
          | LPAREN =>
              if String.eqb (lit i) "pk" then
                _ ← parseTokens RPAREN ")"; ret PKFunc
              else syntaxError (lit i) ["pk"%string] (pos i)
          | _ =>
              _ ← Unscan;
              p ← withFuel (fun n => parsePathRest n [FieldName (lit i)]);
              ret (PathExpr p)
          end
      | _ => _ ← Unscan; v ← parseValue fuel'; ret (LiteralValue v)
      end
  end
with parseExprPrec (fuel : nat) (prec : nat) : M Expr :=
  match fuel with
  | O => fail OutOfFuel
  | S fuel' =>
      lhs ← parseUnaryExpr fuel';
      parseOperators fuel' prec lhs
  end
with parseOperators (fuel : nat) (prec : nat) (lhs : Expr) : M Expr :=
  match fuel with
  | O => fail OutOfFuel
  | S fuel' =>
      i ← ScanIgnoreWhitespace;
      if (Precedence (tok i) <? prec)%nat then _ ← Unscan; ret lhs
      else
        match tok i with
        | IS =>
            j ← ScanIgnoreWhitespace;
            match tok j with
            | NULL => parseOperators fuel' prec (IsNullOp lhs)
            | NOT =>
                _ ← parseTokens NULL "NULL";
                parseOperators fuel' prec (IsNotNullOp lhs)
            | _ => syntaxError (Tokstr (tok j) (lit j))
                     ["NULL"; "NOT"]%string (pos j)
            end
        | BETWEEN =>
            a ← parseExprPrec fuel' (S (Precedence BETWEEN));
            _ ← parseTokens AND "AND";
            b ← parseExprPrec fuel' (S (Precedence BETWEEN));
            parseOperators fuel' prec (BetweenOp lhs a b)
        | _ =>
            match binaryOperator (tok i) with
            | Some op =>
                rhs ← parseExprPrec fuel' (S (Precedence (tok i)));
                parseOperators fuel' prec (BinaryOp op lhs rhs)
            | None => _ ← Unscan; ret lhs
            end
        end
  end.

(** [p.ParseExpr()]: the fuel covers every token still to read. *)
Definition ParseExpr : M Expr :=
  fun p => parseExprPrec (4 * length (unread p) + 8) 1 p.

(** [parser.NewParser(strings.NewReader(s)).ParseExpr()] *)
Definition Parse (s : string) : result Failure Expr :=
  fst (ParseExpr (NewParser s)).

(** [p.parseCondition()]: [WHERE expr], or nothing. *)
Definition parseCondition : M (option Expr) :=
  i ← ScanIgnoreWhitespace;
  match tok i with
  | WHERE => e ← ParseExpr; ret (Some e)
  | _ => _ ← Unscan; ret None
  end.

(** *** update.go *)

(** The [for] loop of [parseSetClause]; [firstPair] and [pairs] are its
    two variables. *)
Fixpoint parseSetClauseLoop (fuel : nat) (firstPair : bool)
  (pairs : list query.UpdateSetPair) : M (list query.UpdateSetPair) :=
  match fuel with
  | O => fail OutOfFuel
  | S fuel' =>
      (* Scan for a comma. *)
      more ← (if negb firstPair then
                 i ← ScanIgnoreWhitespace;
                 if decide (tok i = COMMA) then ret true
                 else _ ← Unscan; ret false
               else ret true);
      if more : bool then
        (* Scan the identifier for the path name. *)
        path ← withExpected ["path"%string] parsePath;
        (* Scan the eq sign *)
        _ ← parseTokens EQ "=";
        (* Scan the expr for the value. *)
        e ← ParseExpr;
        parseSetClauseLoop fuel' false
          (pairs ++ [query.mkUpdateSetPair path e])
      else ret pairs
  end.

(** [parseSetClause] parses the "SET" clause of the query. *)
Definition parseSetClause : M (list query.UpdateSetPair) :=
  withFuel (fun fuel => parseSetClauseLoop fuel true []).

(** The [for] loop of [parseUnsetClause]. *)
Fixpoint parseUnsetClauseLoop (fuel : nat) (firstField : bool)
  (fields : list string) : M (list string) :=
  match fuel with
  | O => fail OutOfFuel
  | S fuel' =>
      (* Scan for a comma. *)
      more ← (if negb firstField then
                 i ← ScanIgnoreWhitespace;
                 if decide (tok i = COMMA) then ret true
                 else _ ← Unscan; ret false
               else ret true);
      if more : bool then
        (* Scan the identifier for the path to unset. *)
        lit ← parseIdent;
        parseUnsetClauseLoop fuel' false (fields ++ [lit])
      else ret fields
  end.

Definition parseUnsetClause : M (list string) :=
  withFuel (fun fuel => parseUnsetClauseLoop fuel true []).

(** [parseUpdateStatement] parses a update string and returns a
    Statement AST object.  This function assumes the UPDATE token has
    already been consumed. *)
Definition parseUpdateStatement : M query.UpdateStmt :=
  (* Parse table name *)
  tableName ← withExpected ["table_name"%string] parseIdent;
  (* Parse clause: SET or UNSET. *)
  i ← ScanIgnoreWhitespace;
  clause ← match tok i with
            | SET => pairs ← parseSetClause; ret (pairs, [])
            | UNSET => fields ← parseUnsetClause; ret ([], fields)
            | _ => syntaxError (Tokstr (tok i) (lit i))
                     ["SET"; "UNSET"]%string (pos i)
            end;
  (* Parse condition: "WHERE EXPR". *)
  whereExpr ← parseCondition;
  ret (query.mkUpdateStmt tableName (fst clause) (snd clause) whereExpr).

End parser.

(** ** The order-preserving key codec *)
Module encoding.
Import document.

(** Modelled from the spec: the codec is not in the sources.  Section
    4.1: "A 1-byte type tag leads every encoding so that heterogeneous
    keys sort first by type. Integers use sign-flipped big-endian; floats
    use the IEEE-754 trick (flip sign bit if positive, flip all bits if
    negative); text/blob are terminated and self-delimiting; null sorts
    smallest."  The tag is the number of the type in types.go, where
    null is the smallest type of a value. *)

Definition byteOfZ (z : Z) : Byte.byte :=
  match Byte.of_N (Z.to_N (z mod 256)) with
  | Some b => b
  | None => Byte.x00
  end.

Definition zOfByte (b : Byte.byte) : Z := Z.of_N (Byte.to_N b).

(** The [n] low bytes of [z], the most significant first. *)
Fixpoint bigEndian (n : nat) (z : Z) : bytes :=
  match n with
  | O => []
  | S n' => bigEndian n' (z / 256) ++ [byteOfZ z]
  end.

(** A 64-bit unsigned counter, "encoded big-endian". *)
Definition EncodeUint64 (z : Z) : bytes := bigEndian 8 z.

(** Sign-flipped big-endian: adding [2^(w-1)] flips the sign bit of the
    two's complement. *)
Definition EncodeInt32 (z : Z) : bytes := bigEndian 4 (z + 2 ^ 31).
Definition EncodeInt64 (z : Z) : bytes := bigEndian 8 (z + 2 ^ 63).

(** The IEEE-754 trick on the 64 bits of a double. *)
Definition EncodeFloat64 (bits : Z) : bytes :=
  if Z.testbit bits 63 then bigEndian 8 (Z.lxor bits (2 ^ 64 - 1))
  else bigEndian 8 (Z.lxor bits (2 ^ 63)).

(** A byte string made self-delimiting: a zero byte is followed by
    [0xFF], and the end is the pair [0x00 0x01]. *)
Fixpoint terminated (b : bytes) : bytes :=
  match b with
  | [] => [Byte.x00; Byte.x01]
  | c :: b' =>
      if Byte.eqb c Byte.x00 then Byte.x00 :: Byte.xff :: terminated b'
      else c :: terminated b'
  end.

Definition tag (v : Value) : Byte.byte := byteOfZ (Type_ v).

(** [encode]: the tag, then the body.  An array or an object is the
    self-delimiting string of its encoded members. *)
Fixpoint encode (v : Value) : bytes :=
  tag v ::
  match v with
  | VNull => []
  | VBool b => [if b then Byte.x01 else Byte.x00]
  | VInt64 i => EncodeInt64 i
  | VFloat64 b => EncodeFloat64 b
  | VTimestamp n => EncodeInt64 n
  | VText s => terminated (list_byte_of_string s)
  | VBlob b => terminated b
  | VArray vs => terminated (concat (List.map encode vs))
  | VObject fs =>
      terminated
        (concat
           (List.map
              (fun kv => terminated (list_byte_of_string (fst kv))
                         ++ encode (snd kv))
              fs))
  end.

(** Scenario S3: the key of a 32-bit integer, [encode_i32]. *)
Definition encode_i32 (z : Z) : bytes :=
  byteOfZ types.TypeInteger :: EncodeInt32 z.

(** The byte strings in their [memcmp] order. *)
Fixpoint compare (a b : bytes) : comparison :=
  match a, b with
  | [], [] => Eq
  | [], _ :: _ => Lt
  | _ :: _, [] => Gt
  | x :: a', y :: b' =>
      match N.compare (Byte.to_N x) (Byte.to_N y) with
      | Eq => compare a' b'
      | c => c
      end
  end.

Definition leb (a b : bytes) : bool :=
  match compare a b with Gt => false | _ => true end.

Definition ltb (a b : bytes) : bool :=
  match compare a b with Lt => true | _ => false end.

(** [p] is a prefix of [k]. *)
Fixpoint hasPrefix (p k : bytes) : bool :=
  match p, k with
  | [], _ => true
  | _ :: _, [] => false
  | x :: p', y :: k' => Byte.eqb x y && hasPrefix p' k'
  end.

(** The least byte string above every string that starts with [p]:
    [p] with its last byte that is not [0xFF] incremented and what
    follows dropped; [None] when there is no such byte. *)
Fixpoint prefixEnd (p : bytes) : option bytes :=
  match p with
  | [] => None
  | x :: p' =>
      match prefixEnd p' with
      | Some e => Some (x :: e)
      | None =>
          if Byte.eqb x Byte.xff then None
          else Some [byteOfZ (zOfByte x + 1)]
      end
  end.

End encoding.

(** ** The key-value engine (package kv) *)
Module kv.
Import document.

Section kv.
(** What the engine stores under a key.  The engine itself treats it as
    opaque: the store is an ordered map from byte strings. *)
Context {V : Type}.

(** [IterOptions]: [LowerBound] is inclusive, [UpperBound] exclusive,
    [nil] is no bound. *)
Record IterOptions : Type := mkIterOptions {
  LowerBound : option bytes;
  UpperBound : option bytes
}.

(** [get]: "Get returns a value associated with the given key. If not
    found, returns ErrKeyNotFound."  The reader is the map it reads. *)
Definition get (r : gmap bytes V) (k : bytes) : result Error V :=
  match r !! k with
  | None => Err ErrKeyNotFound
  | Some value => Ok value
  end.

(** [exists]: "Exists returns whether a key exists and is visible by
    the current session." *)
Definition exists_ (r : gmap bytes V) (k : bytes) : result Error bool :=
  match r !! k with
  | None => Ok false
  | Some _ => Ok true
  end.

(** The key is within the bounds of the options. *)
Definition inBounds (opts : IterOptions) (k : bytes) : bool :=
  match LowerBound opts with
  | Some lo => encoding.leb lo k
  | None => true
  end &&
  match UpperBound opts with
  | Some hi => encoding.ltb k hi
  | None => true
  end.

(** The entries in ascending order of their keys. *)
Definition entryLe (a b : bytes * V) : Prop :=
  encoding.leb (fst a) (fst b) = true.

#[global] Instance entryLe_dec a b : Decision (entryLe a b) :=
  bool_eq_dec _ _.

(** Modelled from the spec: the sessions are not in the sources, only
    the interface [Session] is.  Section 4.2: a session reads "the
    latest committed state on Begin" and its own writes; "Read-only
    sessions reject all mutations with TransactionReadOnly"; "Commit on
    a read-only session or double-commit is an error; double-rollback
    is a no-op; commit-after-rollback fails". *)
Record Session : Type := mkSession {
  view : gmap bytes V;
  writable : bool;
  closed : bool
}.

(** The engine: the committed state, and whether a writable session is
    open ("At most one writable session at a time"). *)
Record Engine : Type := mkEngine {
  committed : gmap bytes V;
  writer : bool
}.

(** [Begin(writable)]: a session on the committed state.  [None]: the
    call blocks, a writer is already open. *)
Definition Begin (w : bool) (ng : Engine) : option (Session * Engine) :=
  if w && writer ng then None
  else Some (mkSession (committed ng) w false,
             mkEngine (committed ng) (w || writer ng)).

(** [Session.Commit]: the writes of the session become the committed
    state. *)
Definition Commit (s : Session) (ng : Engine)
  : result Error unit * Session * Engine :=
  if closed s then (Err TransactionClosed, s, ng)
  else if negb (writable s) then (Err TransactionReadOnly, s, ng)
  else (Ok tt, mkSession (view s) (writable s) true,
        mkEngine (view s) false).

(** [Session.Close]: the writes of the session are dropped; closing a
    closed session does nothing. *)
Definition Close (s : Session) (ng : Engine)
  : result Error unit * Session * Engine :=
  if closed s then (Ok tt, s, ng)
  else (Ok tt, mkSession (view s) (writable s) true,
        mkEngine (committed ng) (if writable s then false else writer ng)).

(** Session methods return a value or an error and change the
    session. *)
Definition S (A : Type) : Type := Session -> result Error A * Session.

(** A read on an open session. *)
Definition reading {A} (f : gmap bytes V -> result Error A) : S A :=
  fun s => if closed s then (Err TransactionClosed, s) else (f (view s), s).

(** A mutation: refused on a closed or read-only session. *)
Definition mutating
  (f : gmap bytes V -> result Error (gmap bytes V)) : S unit :=
  fun s =>
    if closed s then (Err TransactionClosed, s)
    else if negb (writable s) then (Err TransactionReadOnly, s)
    else match f (view s) with
         | Ok m => (Ok tt, mkSession m (writable s) (closed s))
         | Err e => (Err e, s)
         end.

Definition Get (k : bytes) : S V := reading (fun m => get m k).

Definition Exists (k : bytes) : S bool := reading (fun m => exists_ m k).

(** "Put stores a key-value pair. If it already exists, it overrides
    it." *)
Definition Put (k : bytes) (v : V) : S unit :=
  mutating (fun m => Ok (<[k := v]> m)).

(** "Insert inserts a key-value pair. If it already exists, it returns
    ErrKeyAlreadyExists." *)
Definition Insert (k : bytes) (v : V) : S unit :=
  mutating (fun m => match m !! k with
                     | Some _ => Err ErrKeyAlreadyExists
                     | None => Ok (<[k := v]> m)
                     end).

(** "Delete a record by key. If not found, returns ErrKeyNotFound." *)
Definition Delete (k : bytes) : S unit :=
  mutating (fun m => match m !! k with
                     | Some _ => Ok (delete k m)
                     | None => Err ErrKeyNotFound
                     end).

(** [DeleteRange(start, end)]: every key from [start] up to, and
    without, [end] is removed; [None] is no end. *)
Definition DeleteRange (start : bytes) (end_ : option bytes) : S unit :=
  mutating (fun m =>
    Ok (filter (fun kv => inBounds (mkIterOptions (Some start) end_)
                            (fst kv) = false) m)).

(** [Iterator(opts)], walked from [First] by [Next]: the entries within
    the bounds, in ascending order of their keys. *)
Definition Iterator (opts : IterOptions) : S (list (bytes * V)) :=
  reading (fun m =>
    Ok (merge_sort entryLe
          (map_to_list (filter (fun kv => inBounds opts (fst kv) = true) m)))).

End kv.

Arguments IterOptions : clear implicits.
Arguments Session : clear implicits.
Arguments Engine : clear implicits.
Arguments S : clear implicits.

End kv.

(** ** The catalog, the tables, the indexes and the transactions *)
Module database.
Import document encoding.

(** *** Configuration (spec, section 3) *)

(** A type constraint of a column: one of the value types, or the 32-bit
    integer of scenario S3 ("Table with PK foo INT32"). *)
Inductive ColumnType : Type :=
| INT32
| OfType (t : types.ValueType).

(** "ordered list of {path, type?, is_primary_key, is_unique, not_null,
    default?}" *)
Record FieldConstraint : Type := mkFieldConstraint {
  path : Path;
  type_ : option ColumnType;
  is_primary_key : bool;
  is_unique : bool;
  not_null : bool;
  default : option Value
}.

Record TableConfig : Type := mkTableConfig {
  name : string;
  primary_key_path : option Path;
  primary_key_type : option ColumnType;
  field_constraints : list FieldConstraint;
  read_only : bool
}.

(** "{name (unique per database), table_name, path, unique, type?}" *)
Record IndexConfig : Type := mkIndexConfig {
  index_name : string;
  table_name : string;
  index_path : Path;
  unique : bool;
  index_type : option ColumnType
}.

(** The catalog row of a table: its configuration, the prefix assigned to
    it and its counter of generated keys ("a monotonically-increasing
    64-bit integer kept as a counter row in the catalog"). *)
Record TableInfo : Type := mkTableInfo {
  table_config : TableConfig;
  table_prefix : Z;
  counter : Z
}.

(** The catalog row of an index; [constraint_bound]: it was "created as
    the side effect of a unique/PK constraint". *)
Record IndexInfo : Type := mkIndexInfo {
  index_config : IndexConfig;
  index_prefix : Z;
  constraint_bound : bool
}.

(** Modelled from the spec: the layout of what is stored under a key is
    not fixed by the spec, so the store keeps it decoded: the document of
    a table row, the primary key held by an index entry (empty in an
    index that is not unique), a catalog row, the sequence of prefixes. *)
Inductive Payload : Type :=
| RowDocument (d : Document)
| IndexEntry (pk : bytes)
| TableRow (t : TableInfo)
| IndexRow (i : IndexInfo)
| Sequence (n : Z).

(** *** Keys (spec, section 3, "Keys") *)

(** The byte prefix of the prefix number [n]: 8 bytes, so that no prefix
    is the start of another. *)
Definition prefixBytes (n : Z) : bytes := EncodeUint64 n.

(** The sequence of prefixes is kept under number 0, the rows of the
    reserved table [__genji_schema] under number 1; tables and indexes
    get the numbers from 2 on. *)
Definition sequenceKey : bytes := prefixBytes 0.
Definition schemaPrefix : Z := 1.
Definition firstPrefix : Z := 2.
Definition schemaTableName : string := "__genji_schema".

(** The key of the catalog row called [n]. *)
Definition catalogKey (n : string) : bytes :=
  prefixBytes schemaPrefix ++ encode (VText n).

(** "Table row key: <table_prefix> || encode(pk_value)"; the primary key
    [pk] is the encoded value. *)
Definition rowKey (t : TableInfo) (pk : bytes) : bytes :=
  prefixBytes (table_prefix t) ++ pk.

(** "Index entry key: <index_prefix> || encode(value) ||
    encode(pk_value) for non-unique; <index_prefix> || encode(value) for
    unique (payload = primary key bytes)". *)
Definition indexKey (i : IndexInfo) (v : Value) (pk : bytes) : bytes :=
  prefixBytes (index_prefix i) ++ encode v
    ++ (if unique (index_config i) then [] else pk).

Definition indexPayload (i : IndexInfo) (pk : bytes) : Payload :=
  IndexEntry (if unique (index_config i) then pk else []).

(** The bounds of all the keys under a prefix. *)
Definition prefixRange (p : bytes) : kv.IterOptions :=
  kv.mkIterOptions (Some p) (prefixEnd p).

(** *** Transactions (spec, section 4.6) *)

(** "A transaction bundles: a KV session, a handle to the catalog bound
    to that session, a flag writable, and a done flag."  The catalog is
    read through the session, so the session is its handle. *)
Record Transaction : Type := mkTransaction {
  session : kv.Session Payload;
  tx_writable : bool;
  done : bool
}.

(** The database: the key-value engine it was opened on. *)
Record DB : Type := mkDB { ng : kv.Engine Payload }.

(** [Open(":memory:")]: an engine with nothing committed. *)
Definition New : DB := mkDB (kv.mkEngine ∅ false).

(** [DB.Begin(writable)]; [None]: the call blocks. *)
Definition Begin (w : bool) (db : DB) : option (Transaction * DB) :=
  match kv.Begin w (ng db) with
  | Some (s, e) => Some (mkTransaction s w false, mkDB e)
  | None => None
  end.

(** [Tx.Commit]: an error on a transaction that is done or read-only. *)
Definition Commit (tx : Transaction) (db : DB)
  : result Error unit * Transaction * DB :=
  if done tx then (Err TransactionClosed, tx, db)
  else if negb (tx_writable tx) then (Err TransactionReadOnly, tx, db)
  else
    let '(r, s, e) := kv.Commit (session tx) (ng db) in
    (r, mkTransaction s (tx_writable tx) (is_ok r || done tx), mkDB e).

(** [Tx.Rollback]: nothing to do on a transaction that is done. *)
Definition Rollback (tx : Transaction) (db : DB)
  : result Error unit * Transaction * DB :=
  if done tx then (Ok tt, tx, db)
  else
    let '(r, s, e) := kv.Close (session tx) (ng db) in
    (r, mkTransaction s (tx_writable tx) true, mkDB e).

(** The operations of a transaction return a value or an error and
    change the transaction; after an error the state is kept as it is
    ("possibly dirty"). *)
Definition T (A : Type) : Type :=
  Transaction -> result Error A * Transaction.

Definition ret {A} (a : A) : T A := fun tx => (Ok a, tx).
Definition fail {A} (e : Error) : T A := fun tx => (Err e, tx).
Definition bind {A B} (m : T A) (k : A -> T B) : T B :=
  fun tx => match m tx with
            | (Ok a, tx') => k a tx'
            | (Err e, tx') => (Err e, tx')
            end.

#[global] Instance tx_ret : MRet T := @ret.
#[global] Instance tx_bind : MBind T := fun A B k m => bind m k.

(** A method of the session, run in the transaction. *)
Definition onSession {A} (m : kv.S Payload A) : T A :=
  fun tx => let '(r, s) := m (session tx) in
            (r, mkTransaction s (tx_writable tx) (done tx)).

(** The result of [m], with the error [e0] replaced by [e1]. *)
Definition mapError {A} (e0 e1 : Error) (m : T A) : T A :=
  fun tx => match m tx with
            | (Err e, tx') => (Err (if decide (e = e0) then e1 else e), tx')
            | r => r
            end.

(** The result of [m] as a value, the transaction going on. *)
Definition try {A} (m : T A) : T (result Error A) :=
  fun tx => let '(r, tx') := m tx in (Ok r, tx').

(** [f] on every element of the list, in order, up to the first
    error. *)
Fixpoint forEach {A} (f : A -> T unit) (l : list A) : T unit :=
  match l with
  | [] => ret tt
  | a :: l' => _ ← f a; forEach f l'
  end.

(** *** The catalog (spec, section 4.3) *)

(** Modelled from the spec: the catalog is not in the sources.  It is
    read through the session: a table or an index exists when its row is
    in [__genji_schema]. *)

(** The next prefix number: "assigned monotonically at creation and
    persisted". *)
Definition nextPrefix : T Z :=
  r ← try (onSession (kv.Get sequenceKey));
  let n := match r with Ok (Sequence n) => n | _ => firstPrefix end in
  _ ← onSession (kv.Put sequenceKey (Sequence (n + 1)));
  ret n.

(** The reserved table: its rows are keyed by the name of the table or
    index they describe, and it is read-only. *)
Definition schemaTable : TableInfo :=
  mkTableInfo
    (mkTableConfig schemaTableName (Some [FieldName "name"])
       (Some (OfType types.TypeText)) [] true)
    schemaPrefix 0.

(** [GetTable(name)]: "catalog-only". *)
Definition GetTable (n : string) : T TableInfo :=
  if String.eqb n schemaTableName then ret schemaTable
  else
    r ← try (onSession (kv.Get (catalogKey n)));
    match r with
    | Ok (TableRow t) => ret t
    | Ok _ | Err ErrKeyNotFound => fail TableNotFound
    | Err e => fail e
    end.

(** [GetIndex(name)] *)
Definition GetIndex (n : string) : T IndexInfo :=
  r ← try (onSession (kv.Get (catalogKey n)));
  match r with
  | Ok (IndexRow i) => ret i
  | Ok _ | Err ErrKeyNotFound => fail IndexNotFound
  | Err e => fail e
  end.

(** The rows of [__genji_schema], in the order of their keys. *)
Definition schemaRows : T (list (bytes * Payload)) :=
  onSession (kv.Iterator (prefixRange (prefixBytes schemaPrefix))).

Definition tableRowsOf (rows : list (bytes * Payload)) : list TableInfo :=
  omap (fun kv => match snd kv with TableRow t => Some t | _ => None end)
    rows.

Definition indexRowsOf (rows : list (bytes * Payload)) : list IndexInfo :=
  omap (fun kv => match snd kv with IndexRow i => Some i | _ => None end)
    rows.

(** [ListTables()]: the names of the tables. *)
Definition ListTables : T (list string) :=
  rows ← schemaRows;
  ret (List.map (fun t => name (table_config t)) (tableRowsOf rows)).

(** The indexes of the table [tn]; of every table when [tn] is empty. *)
Definition ownedBy (tn : string) (i : IndexInfo) : bool :=
  String.eqb tn "" || String.eqb (table_name (index_config i)) tn.

Definition Indexes (tn : string) : T (list IndexInfo) :=
  rows ← schemaRows;
  ret (List.filter (ownedBy tn) (indexRowsOf rows)).

(** [ListIndexes(tableName)]: the names of these indexes. *)
Definition ListIndexes (tn : string) : T (list string) :=
  idxs ← Indexes tn;
  ret (List.map (fun i => index_name (index_config i)) idxs).

(** *** Indexes (spec, section 4.5) *)

(** [Set(value, pk)]: "duplicates collide at Insert time". *)
Definition indexSet (i : IndexInfo) (v : Value) (pk : bytes) : T unit :=
  mapError ErrKeyAlreadyExists DuplicateDocument
    (onSession (kv.Insert (indexKey i v pk) (indexPayload i pk))).

(** [Truncate()] of an index: [DeleteRange] over its prefix. *)
Definition indexTruncate (i : IndexInfo) : T unit :=
  let p := prefixBytes (index_prefix i) in
  onSession (kv.DeleteRange p (prefixEnd p)).

(** "pivot = {type?, value?}" *)
Record Pivot : Type := mkPivot {
  pivot_type : option types.ValueType;
  pivot_value : option Value
}.

(** [index.EmptyPivot(t)] and the [nil] pivot of the tests. *)
Definition EmptyPivot (t : types.ValueType) : Pivot := mkPivot (Some t) None.
Definition NoPivot : Pivot := mkPivot None None.

(** The end of a self-delimiting byte string: what comes up to the pair
    [0x00 0x01], that pair included, and what follows it. *)
Fixpoint splitTerminated (b : bytes) : option (bytes * bytes) :=
  match b with
  | [] => None
  | c :: b' =>
      if Byte.eqb c Byte.x00 then
        match b' with
        | d :: b'' =>
            if Byte.eqb d Byte.x01 then Some ([c; d], b'')
            else
              match splitTerminated b'' with
              | Some (x, y) => Some (c :: d :: x, y)
              | None => None
              end
        | [] => None
        end
      else
        match splitTerminated b' with
        | Some (x, y) => Some (c :: x, y)
        | None => None
        end
  end.

(** An encoded value at the start of [b], and what follows it. *)
Definition splitValue (b : bytes) : option (bytes * bytes) :=
  match b with
  | [] => None
  | t :: body =>
      let ty := zOfByte t in
      if ty =? types.TypeNull then Some ([t], body)
      else if ty =? types.TypeBoolean then
        Some (t :: firstn 1 body, skipn 1 body)
      else if (ty =? types.TypeInteger) || (ty =? types.TypeDouble)
              || (ty =? types.TypeTimestamp) then
        Some (t :: firstn 8 body, skipn 8 body)
      else
        match splitTerminated body with
        | Some (x, y) => Some (t :: x, y)
        | None => None
        end
  end.

(** An index entry as the iteration hands it over: the encoded value and
    the primary key. *)
Definition indexEntry (i : IndexInfo) (kv : bytes * Payload)
  : bytes * bytes :=
  let rest := skipn 8 (fst kv) in
  if unique (index_config i) then
    (rest, match snd kv with IndexEntry pk => pk | _ => [] end)
  else
    match splitValue rest with
    | Some (v, pk) => (v, pk)
    | None => (rest, [])
    end.

(** [AscendGreaterOrEqual(pivot, fn)], as the sequence of the entries
    handed to [fn]: from the pivot value, or from the first entry of the
    pivot type, or from the first entry; within the pivot type when there
    is one. *)
Definition AscendGreaterOrEqual (i : IndexInfo) (pv : Pivot)
  : T (list (bytes * bytes)) :=
  let p := prefixBytes (index_prefix i) in
  let typed := match pivot_type pv with
               | Some t => p ++ [byteOfZ t]
               | None => p
               end in
  let start := match pivot_value pv with
               | Some v => p ++ encode v
               | None => typed
               end in
  es ← onSession (kv.Iterator (kv.mkIterOptions (Some start) (prefixEnd typed)));
  ret (List.map (indexEntry i) es).

(** *** Tables (spec, section 4.4) *)

(** A catalog row seen as a document of [__genji_schema]: "rows {type:
    "table"|"index", name, ...}". *)
Definition tableDocument (t : TableInfo) : Document :=
  [ ("type", VText "table");
    ("name", VText (name (table_config t)));
    ("table_name", VText (name (table_config t)));
    ("prefix", VInt64 (table_prefix t)) ]%string.

Definition indexDocument (i : IndexInfo) : Document :=
  [ ("type", VText "index");
    ("name", VText (index_name (index_config i)));
    ("table_name", VText (table_name (index_config i)));
    ("path", VText (expr.PathString (index_path (index_config i))));
    ("unique", VBool (unique (index_config i)));
    ("prefix", VInt64 (index_prefix i)) ]%string.

(** The document stored under a row key. *)
Definition payloadDocument (p : Payload) : option Document :=
  match p with
  | RowDocument d => Some d
  | TableRow t => Some (tableDocument t)
  | IndexRow i => Some (indexDocument i)
  | IndexEntry _ | Sequence _ => None
  end.

(** [Iterate(fn)], as the sequence of the rows handed to [fn]: "in
    ascending key order"; each row with its primary key. *)
Definition Iterate (t : TableInfo) : T (list (bytes * Document)) :=
  es ← onSession (kv.Iterator (prefixRange (prefixBytes (table_prefix t))));
  ret (omap (fun kv => match payloadDocument (snd kv) with
                       | Some d => Some (skipn 8 (fst kv), d)
                       | None => None
                       end) es).

(** [GetDocument(pk)] *)
Definition GetDocument (t : TableInfo) (pk : bytes) : T Document :=
  r ← try (onSession (kv.Get (rowKey t pk)));
  match r with
  | Ok p => match payloadDocument p with
            | Some d => ret d
            | None => fail DocumentNotFound
            end
  | Err ErrKeyNotFound => fail DocumentNotFound
  | Err e => fail e
  end.

(** "missing or empty": a null, an empty text or an empty blob. *)
Definition isEmpty (v : Value) : bool :=
  match v with
  | VNull | VText EmptyString | VBlob [] => true
  | _ => false
  end.

(** The primary key of the value under the type constraint of the
    table; [None]: "wrong type". *)
Definition encodeKey (ty : option ColumnType) (v : Value) : option bytes :=
  match ty with
  | None => Some (encode v)
  | Some INT32 =>
      match v with
      | VInt64 i =>
          if (- 2 ^ 31 <=? i) && (i <? 2 ^ 31) then Some (encode_i32 i)
          else None
      | _ => None
      end
  | Some (OfType t) =>
      if Type_ v =? t then Some (encode v) else None
  end.

(** The next generated key of the table: the counter of its catalog row,
    incremented and "encoded big-endian". *)
Definition generateKey (t : TableInfo) : T bytes :=
  info ← GetTable (name (table_config t));
  let n := counter info + 1 in
  _ ← onSession (kv.Put (catalogKey (name (table_config t)))
                   (TableRow (mkTableInfo (table_config info)
                                (table_prefix info) n)));
  ret (EncodeUint64 n).

(** Step 1 and 2 of [Insert]. *)
Definition resolveKey (t : TableInfo) (d : Document) : T bytes :=
  match primary_key_path (table_config t) with
  | Some p =>
      match GetByPath p d with
      | Err _ => fail MissingPrimaryKey
      | Ok v =>
          if isEmpty v then fail MissingPrimaryKey
          else match encodeKey (primary_key_type (table_config t)) v with
               | Some k => ret k
               | None => fail TypeMismatch
               end
      end
  | None => generateKey t
  end.

(** The indexed value of a document: "null if path absent". *)
Definition indexedValue (i : IndexInfo) (d : Document) : Value :=
  match GetByPath (index_path (index_config i)) d with
  | Ok v => v
  | Err _ => VNull
  end.

(** [Insert(doc) -> primary_key] *)
Definition Insert (t : TableInfo) (d : Document) : T bytes :=
  if read_only (table_config t) then fail ReadOnlyTable
  else
    pk ← resolveKey t d;
    _ ← mapError ErrKeyAlreadyExists DuplicateDocument
          (onSession (kv.Insert (rowKey t pk) (RowDocument d)));
    idxs ← Indexes (name (table_config t));
    _ ← forEach (fun i => indexSet i (indexedValue i d) pk) idxs;
    ret pk.

(** *** Creating, dropping and rebuilding (spec, section 4.3) *)

(** Every row of the table gets its entry in the index. *)
Definition populate (i : IndexInfo) (t : TableInfo) : T unit :=
  rows ← Iterate t;
  forEach (fun r => indexSet i (indexedValue i (snd r)) (fst r)) rows.

Definition createIndex (cfg : IndexConfig) (bound : bool) : T unit :=
  e ← onSession (kv.Exists (catalogKey (index_name cfg)));
  if e : bool then fail IndexAlreadyExists
  else
    t ← GetTable (table_name cfg);
    if read_only (table_config t) then fail ReadOnlyTable
    else
      p ← nextPrefix;
      let i := mkIndexInfo cfg p bound in
      _ ← onSession (kv.Insert (catalogKey (index_name cfg)) (IndexRow i));
      populate i t.

(** [CreateIndex(cfg)]: "if the target table is non-empty, scans the
    table and populates the index". *)
Definition CreateIndex (cfg : IndexConfig) : T unit := createIndex cfg false.

(** The name of the index of a constraint: [<table>_<path>_idx]. *)
Definition constraintIndexName (tn : string) (p : Path) : string :=
  tn +:+ "_" +:+ expr.PathString p +:+ "_idx".

Definition constraintIndex (tn : string) (fc : FieldConstraint)
  : IndexConfig :=
  mkIndexConfig (constraintIndexName tn (path fc)) tn (path fc) true
    (type_ fc).

(** [CreateTable(cfg)]: "implicitly creates the indexes demanded by
    unique/PK constraints". *)
Definition CreateTable (cfg : TableConfig) : T unit :=
  e ← onSession (kv.Exists (catalogKey (name cfg)));
  if (e : bool) || String.eqb (name cfg) schemaTableName
  then fail TableAlreadyExists
  else
    p ← nextPrefix;
    _ ← onSession (kv.Insert (catalogKey (name cfg))
                     (TableRow (mkTableInfo cfg p 0)));
    forEach (fun fc =>
               if is_unique fc || is_primary_key fc
               then createIndex (constraintIndex (name cfg) fc) true
               else ret tt)
      (field_constraints cfg).

(** The entries of the index and its catalog row are removed. *)
Definition dropIndex (i : IndexInfo) : T unit :=
  _ ← indexTruncate i;
  onSession (kv.Delete (catalogKey (index_name (index_config i)))).

(** [DropIndex(name)]: "refuses constraint-bound indexes with
    CannotDropConstraintIndex". *)
Definition DropIndex (n : string) : T unit :=
  i ← GetIndex n;
  if constraint_bound i then fail CannotDropConstraintIndex
  else dropIndex i.

(** [DropTable(name)]: "Deletes table rows (DeleteRange over the table
    prefix), then drops every owned index, then removes the catalog
    row." *)
Definition DropTable (n : string) : T unit :=
  t ← GetTable n;
  if read_only (table_config t) then fail ReadOnlyTable
  else
    let p := prefixBytes (table_prefix t) in
    _ ← onSession (kv.DeleteRange p (prefixEnd p));
    idxs ← Indexes n;
    _ ← forEach dropIndex idxs;
    onSession (kv.Delete (catalogKey n)).

(** [ReIndex(name)]: "truncates the index by DeleteRange over its
    prefix, re-iterates the table, re-inserts each entry". *)
Definition ReIndex (n : string) : T unit :=
  i ← GetIndex n;
  _ ← indexTruncate i;
  t ← GetTable (table_name (index_config i));
  populate i t.

(** The documents of [__genji_schema], as a SELECT over it sees them. *)
Definition schemaDocuments : T (list Document) :=
  rows ← Iterate schemaTable;
  ret (List.map snd rows).

End database.

(** * Vocabulary of the theorems *)

(** ** Lists of fields as tokens *)

Section field_tokens.
Import scanner parser.

(** White space only. *)
Definition allWS (ws : list Item) : Prop := Forall (fun i => tok i = WS) ws.

(** The tokens after the leading white space. *)
Fixpoint dropWS (l : list Item) : list Item :=
  match l with
  | i :: l' => match tok i with WS => dropWS l' | _ => l end
  | [] => []
  end.

(** What the UNSET loop reads after its first field: [, f] again and
    again, with any white space around the commas. *)
Inductive MoreFields : list string -> list Item -> Prop :=
| MoreFields_nil : MoreFields [] []
| MoreFields_cons ws pc lc ws' pf f fs toks :
    allWS ws -> allWS ws' -> MoreFields fs toks ->
    MoreFields (f :: fs)
      (ws ++ mkItem COMMA pc lc :: ws' ++ mkItem IDENT pf f :: toks).

(** A list of fields: [f, f, ...]. *)
Inductive FieldList : list string -> list Item -> Prop :=
| FieldList_intro ws pf f fs toks :
    allWS ws -> MoreFields fs toks ->
    FieldList (f :: fs) (ws ++ mkItem IDENT pf f :: toks).

(** What follows the clause does not go on with a comma. *)
Definition endsClause (rest : list Item) : Prop :=
  match dropWS rest with
  | i :: _ => tok i <> COMMA /\ tok i <> EOF
  | [] => True
  end.

(** For the table [t] and the path [p]: parsing [UPDATE t UNSET p]
    succeeds and records [p]. *)
Definition UnsetRecordsPath (t : string) (p : document.Path) : Prop :=
  exists stmt ps,
    parseUpdateStatement
      (NewParser (t +:+ " UNSET " +:+ expr.PathString p))
    = (Ok stmt, ps)
    /\ query.UnsetFields stmt = [expr.PathString p].

(** The same for the SET clause: [UPDATE t SET p = e] records [p]. *)
Definition SetRecordsPath (t : string) (p : document.Path) (e : string)
  : Prop :=
  exists stmt ps x,
    parseUpdateStatement
      (NewParser (t +:+ " SET " +:+ expr.PathString p +:+ " = " +:+ e))
    = (Ok stmt, ps)
    /\ query.SetPairs stmt = [query.mkUpdateSetPair p x].

End field_tokens.

(** ** States of a transaction *)

(** The entries a transaction sees. *)
Definition view (tx : database.Transaction) : gmap (list Byte.byte) database.Payload :=
  kv.view (database.session tx).

(** The session of the transaction is open and writable. *)
Definition writing (tx : database.Transaction) : Prop :=
  kv.closed (database.session tx) = false
  /\ kv.writable (database.session tx) = true.

Section respects_def.
Import database.

(** The transaction [tx] with the entries [m]. *)
Definition setView (m : gmap (list Byte.byte) Payload) (tx : Transaction)
  : Transaction :=
  mkTransaction
    (kv.mkSession m (kv.writable (session tx)) (kv.closed (session tx)))
    (tx_writable tx) (done tx).

(** Whatever [m] returns, it changes nothing but the entries, and the
    entries before and after are related by [P]. *)
Definition respects {A : Type} (P : relation (gmap (list Byte.byte) Payload))
  (m : T A) : Prop :=
  forall tx r tx',
    m tx = (r, tx') -> tx' = setView (view tx') tx /\ P (view tx) (view tx').

(** The prefix numbers of tables and indexes: from [firstPrefix] on, on 64
    bits. *)
Definition validPrefix (p : Z) : Prop := firstPrefix <= p < 2 ^ 64.

(** The entries are kept as they are, the sequence of prefixes apart;
    others may be added. *)
Definition keeps : relation (gmap (list Byte.byte) Payload) :=
  fun m m' =>
    forall k v, k <> sequenceKey -> m !! k = Some v -> m' !! k = Some v.

(** The entries only grow: no key is lost. *)
Definition grows : relation (gmap (list Byte.byte) Payload) :=
  fun m m' => forall k, is_Some (m !! k) -> is_Some (m' !! k).

End respects_def.

(** ** The scenarios of the tests, as inputs *)
Module scenario.
Import document database.

(** [CREATE TABLE n]: no primary key, no constraint. *)
Definition plainTable (n : string) : TableConfig :=
  mkTableConfig n None None [] false.

(** An index on one field of a table, as [CREATE INDEX n ON t(f)]. *)
Definition fieldIndex (n t f : string) : IndexConfig :=
  mkIndexConfig n t [FieldName f] false None.

(** A transaction on the database, the blocked call apart. *)
Definition begin (w : bool) (db : DB) : Transaction * DB :=
  match Begin w db with
  | Some r => r
  | None => (mkTransaction (kv.mkSession ∅ w true) w true, db)
  end.

(** The state after [m], and its result. *)
Definition after {A : Type} (m : T A) (tx : Transaction) : Transaction :=
  snd (m tx).
Definition resultOf {A : Type} (m : T A) (tx : Transaction) : result Error A :=
  fst (m tx).

(** [newTestDB]: a writable transaction on a new database. *)
Definition newTestDB : Transaction := fst (begin true New).

(** S6: a table and an index created in a writable transaction, which is
    rolled back; then a read-only transaction. *)
Definition s6_db1 : DB := snd (begin true New).
Definition s6_table : TableConfig := plainTable "table".
Definition s6_index : IndexConfig := fieldIndex "idx" "table" "x".
Definition s6_tx1 : Transaction := after (CreateTable s6_table) newTestDB.
Definition s6_tx2 : Transaction := after (CreateIndex s6_index) s6_tx1.
Definition s6_rolled : Transaction := snd (fst (Rollback s6_tx2 s6_db1)).
Definition s6_db2 : DB := snd (Rollback s6_tx2 s6_db1).
Definition s6_reader : Transaction := fst (begin false s6_db2).
Definition s6_db3 : DB := snd (begin false s6_db2).

End scenario.

(** ** What the parser reads next *)

(** The token [ScanIgnoreWhitespace] returns in the state [p], and the
    state it leaves. *)
Definition nextToken (p : parser.Parser) : scanner.Item :=
  fst (parser.skipWhitespace (parser.read p) (parser.unread p)).

Definition afterToken (p : parser.Parser) : parser.Parser :=
  snd (parser.skipWhitespace (parser.read p) (parser.unread p)).

(** The syntax error on the token [i] with the list [expected]. *)
Definition unexpected (i : scanner.Item) (expected : list string)
  : parser.Failure :=
  parser.SyntaxError
    (parser.newParseError (scanner.Tokstr (scanner.tok i) (scanner.lit i))
       expected (scanner.pos i)).

(** ** The query builder of UPDATE (package query, the builder of
       [UpdateStmt]) *)
Module dsl.

Section dsl.
(** [Expr] and [TableSelector] are interfaces of the package and [genji.Tx]
    a type of another one: all three are opaque to the builder. *)
Context {Expr TableSelector Tx : Type}.

(** A Go map is a reference.  The heap holds the maps made so far, each at
    its address; a statement holds the address of its map, [None] being the
    nil map of a zero statement. *)
Definition Heap : Type := gmap nat (gmap string Expr).

(** [type UpdateStmt struct { tableSelector; pairs; whereExpr }]; a nil
    interface is [None]. *)
Record UpdateStmt : Type := mkUpdateStmt {
  tableSelector : option TableSelector;
  pairs : option nat;
  whereExpr : option Expr
}.

(** The map a statement refers to; the nil map reads as an empty one. *)
Definition pairsOf (u : UpdateStmt) (h : Heap) : gmap string Expr :=
  match pairs u with
  | Some a => default ∅ (h !! a)
  | None => ∅
  end.

(** [Update]: [UpdateStmt{tableSelector: tableSelector, pairs:
    make(map[string]Expr)}]; [make] takes an address not in use. *)
Definition Update (ts : option TableSelector) (h : Heap) : UpdateStmt * Heap :=
  let a := fresh (dom h) in
  (mkUpdateStmt ts (Some a) None, <[a := ∅]> h).

(** [Set]: [u.pairs[fieldName] = e; return u].  The receiver is a copy of
    the statement, the map it writes is not a copy.  [None]: the
    assignment to an entry of a nil map panics. *)
Definition Set_ (u : UpdateStmt) (fieldName : string) (e : Expr) (h : Heap)
  : option (UpdateStmt * Heap) :=
  match pairs u with
  | Some a => Some (u, <[a := <[fieldName := e]> (default ∅ (h !! a))]> h)
  | None => None
  end.

(** [Where]: [u.whereExpr = e; return u], on a copy of the statement. *)
Definition Where (u : UpdateStmt) (e : Expr) : UpdateStmt :=
  mkUpdateStmt (tableSelector u) (pairs u) (Some e).

(** [Run]: its two guards, in their order.  What follows them selects the
    table and walks a stream of records, with types of packages that are
    not in the sources: it is the parameter [body], given the selector, the
    pairs and the condition.  An error is its message, [None] is nil. *)
Definition Run
  (body : TableSelector -> gmap string Expr -> option Expr -> Tx
          -> option string)
  (u : UpdateStmt) (h : Heap) (tx : Tx) : option string :=
  match tableSelector u with
  | None => Some "missing table selector"%string
  | Some ts =>
      if (size (pairsOf u h) =? 0)%nat then Some "Set method not called"%string
      else body ts (pairsOf u h) (whereExpr u) tx
  end.

End dsl.

Arguments UpdateStmt : clear implicits.
Arguments Heap : clear implicits.

End dsl.

(** ** Package kv: [get] and [exists] on a reader that can fail *)
Module reader.

Section reader.
(** [E]: the errors of the reader and of its closers other than
    [pebble.ErrNotFound]. *)
Context {E : Type}.

(** What [r.Get(k)] returns: a value with its closer, here the error that
    [closer.Close()] will return ([None] is nil); an error that is
    [pebble.ErrNotFound]; or another error. *)
Inductive Read : Type :=
| Found (value : document.bytes) (close : option E)
| ErrNotFound
| Failed (err : E).

(** [pebble.Reader], as far as [get] and [exists] use it. *)
Definition Reader : Type := document.bytes -> Read.

(** The errors of [get] and [exists]: [ErrKeyNotFound] of the package, or
    an error handed on as it came. *)
Inductive GetError : Type :=
| KeyNotFound
| ReaderError (err : E).

(** [get].  The copy it makes of the value has the bytes of the value. *)
Definition get (r : Reader) (k : document.bytes)
  : result GetError document.bytes :=
  match r k with
  | ErrNotFound => Err KeyNotFound
  | Failed err => Err (ReaderError err)
  | Found value (Some err) => Err (ReaderError err)
  | Found value None => Ok value
  end.

(** [exists]. *)
Definition exists_ (r : Reader) (k : document.bytes)
  : result GetError bool :=
  match r k with
  | ErrNotFound => Ok false
  | Failed err => Err (ReaderError err)
  | Found _ (Some err) => Err (ReaderError err)
  | Found _ None => Ok true
  end.

(** The reader of a map: it never fails and its closers never do. *)
Definition ofMap (m : gmap document.bytes document.bytes) : Reader :=
  fun k => match m !! k with
           | Some value => Found value None
           | None => ErrNotFound
           end.

End reader.

Arguments Read : clear implicits.
Arguments Reader : clear implicits.
Arguments GetError : clear implicits.

End reader.

(** * Theorems *)

(** ** The order of the keys *)

Section encoding_facts.
Import encoding.

Lemma to_N_inj x y : Byte.to_N x = Byte.to_N y -> x = y.
Proof.
  intros H. apply (f_equal Byte.of_N) in H. rewrite !Byte.of_to_N in H.
  congruence.
Qed.

Lemma byte_eqb_to_N x y : Byte.eqb x y = (Byte.to_N x =? Byte.to_N y)%N.
Proof.
  destruct (N.eqb_spec (Byte.to_N x) (Byte.to_N y)) as [H|H].
  - apply to_N_inj in H as ->. by apply Byte.byte_dec_lb.
  - destruct (Byte.eqb x y) eqn:E; [|done].
    apply Byte.byte_dec_bl in E. congruence.
Qed.

Lemma to_N_byteOfZ z : Byte.to_N (byteOfZ z) = Z.to_N (z mod 256).
Proof.
  unfold byteOfZ. destruct (Byte.of_N (Z.to_N (z mod 256))) as [b|] eqn:E.
  - by apply Byte.to_of_N.
  - apply Byte.of_N_None_iff in E.
    pose proof (Z.mod_pos_bound z 256). lia.
Qed.

Lemma byteOfZ_zOfByte x : byteOfZ (zOfByte x) = x.
Proof.
  apply to_N_inj. rewrite to_N_byteOfZ. unfold zOfByte.
  pose proof (Byte.to_N_bounded x). rewrite Z.mod_small by lia. lia.
Qed.

Lemma leb_cons x a y b :
  leb (x :: a) (y :: b)
  = ((Byte.to_N x <? Byte.to_N y)%N
     || ((Byte.to_N x =? Byte.to_N y)%N && leb a b)).
Proof.
  unfold leb. simpl.
  destruct (N.compare_spec (Byte.to_N x) (Byte.to_N y)) as [H|H|H].
  - rewrite H, N.ltb_irrefl, N.eqb_refl. done.
  - apply N.ltb_lt in H as ->. done.
  - assert ((Byte.to_N x <? Byte.to_N y)%N = false) as -> by (apply N.ltb_ge; lia).
    assert ((Byte.to_N x =? Byte.to_N y)%N = false) as -> by (apply N.eqb_neq; lia).
    done.
Qed.

Lemma ltb_cons x a y b :
  ltb (x :: a) (y :: b)
  = ((Byte.to_N x <? Byte.to_N y)%N
     || ((Byte.to_N x =? Byte.to_N y)%N && ltb a b)).
Proof.
  unfold ltb. simpl.
  destruct (N.compare_spec (Byte.to_N x) (Byte.to_N y)) as [H|H|H].
  - rewrite H, N.ltb_irrefl, N.eqb_refl. done.
  - apply N.ltb_lt in H as ->. done.
  - assert ((Byte.to_N x <? Byte.to_N y)%N = false) as -> by (apply N.ltb_ge; lia).
    assert ((Byte.to_N x =? Byte.to_N y)%N = false) as -> by (apply N.eqb_neq; lia).
    done.
Qed.

Lemma leb_nil_l k : leb [] k = true.
Proof. by destruct k. Qed.

Lemma ltb_nil_r k : ltb k [] = false.
Proof. by destruct k. Qed.

(** The keys within the bounds of a prefix are the keys that start with
    it. *)
Lemma inBounds_prefixRange p k :
  kv.inBounds (kv.mkIterOptions (Some p) (prefixEnd p)) k = hasPrefix p k.
Proof.
  unfold kv.inBounds. simpl. revert k.
  induction p as [|x p IH]; intros k; simpl.
  - by rewrite leb_nil_l.
  - destruct k as [|y k]; [done|]. rewrite leb_cons, (byte_eqb_to_N x y).
    specialize (IH k).
    destruct (prefixEnd p) as [e|].
    + rewrite ltb_cons, <- IH.
      destruct (N.ltb_spec (Byte.to_N x) (Byte.to_N y)),
        (N.eqb_spec (Byte.to_N x) (Byte.to_N y)),
        (N.ltb_spec (Byte.to_N y) (Byte.to_N x)),
        (N.eqb_spec (Byte.to_N y) (Byte.to_N x));
        simpl; try lia; try done;
        by destruct (leb p k), (ltb k e).
    + rewrite andb_true_r in IH. rewrite <- IH.
      rewrite (byte_eqb_to_N x Byte.xff).
      pose proof (Byte.to_N_bounded x) as Hx.
      pose proof (Byte.to_N_bounded y) as Hy.
      destruct (N.eqb_spec (Byte.to_N x) (Byte.to_N Byte.xff)) as [E|E].
      * change (Byte.to_N Byte.xff) with 255%N in E.
        destruct (N.ltb_spec (Byte.to_N x) (Byte.to_N y)),
          (N.eqb_spec (Byte.to_N x) (Byte.to_N y));
          simpl; try lia; try done; by destruct (leb p k).
      * change (Byte.to_N Byte.xff) with 255%N in E.
        rewrite ltb_cons, ltb_nil_r, andb_false_r, orb_false_r.
        rewrite to_N_byteOfZ. unfold zOfByte.
        rewrite Z.mod_small by lia.
        destruct (N.ltb_spec (Byte.to_N x) (Byte.to_N y)),
          (N.eqb_spec (Byte.to_N x) (Byte.to_N y)),
          (N.ltb_spec (Byte.to_N y)
             (Z.to_N (Z.of_N (Byte.to_N x) + 1)));
          simpl; try lia; try done; by destruct (leb p k).
Qed.

Lemma bigEndian_length n z : length (bigEndian n z) = n.
Proof.
  revert z. induction n as [|n IH]; intros z; simpl; [done|].
  rewrite length_app, IH. simpl. lia.
Qed.

Lemma bigEndian_inj n a b :
  bigEndian n a = bigEndian n b -> a mod 256 ^ Z.of_nat n = b mod 256 ^ Z.of_nat n.
Proof.
  revert a b. induction n as [|n IH]; intros a b; simpl.
  - intros _. by rewrite !Z.mod_1_r.
  - intros H. apply app_inj_tail in H as [H1 H2]. apply IH in H1.
    apply (f_equal Byte.to_N) in H2. rewrite !to_N_byteOfZ in H2.
    assert (a mod 256 = b mod 256) as Hlow.
    { pose proof (Z.mod_pos_bound a 256). pose proof (Z.mod_pos_bound b 256).
      lia. }
    rewrite Nat2Z.inj_succ, Z.pow_succ_r by lia.
    rewrite !(Z.rem_mul_r _ 256) by lia. congruence.
Qed.

Lemma hasPrefix_app p x : hasPrefix p (p ++ x) = true.
Proof.
  induction p as [|c p IH]; simpl; [done|].
  rewrite IH, andb_true_r. by apply Byte.byte_dec_lb.
Qed.

Lemma hasPrefix_same_length p q x :
  length p = length q -> hasPrefix p (q ++ x) = true -> p = q.
Proof.
  revert q. induction p as [|c p IH]; intros [|d q]; simpl; try done.
  intros [= Hlen] [Hcd Hp]%andb_true_iff.
  apply Byte.byte_dec_bl in Hcd as ->. f_equal. by apply IH.
Qed.

End encoding_facts.



(** ** Value types *)

Lemma IsNumber_iff (t : types.ValueType) :
  types.IsNumber t = true <-> t = types.TypeInteger \/ t = types.TypeDouble.
Proof. unfold types.IsNumber. rewrite orb_true_iff, !Z.eqb_eq. tauto. Qed.

Lemma IsTimestampCompatible_iff (t : types.ValueType) :
  types.IsTimestampCompatible t = true
  <-> t = types.TypeTimestamp \/ t = types.TypeText.
Proof.
  unfold types.IsTimestampCompatible. rewrite orb_true_iff, !Z.eqb_eq. tauto.
Qed.

Lemma IsComparableWith_iff (t other : types.ValueType) :
  types.IsComparableWith t other = true
  <-> t = other
      \/ (types.IsNumber t = true /\ types.IsNumber other = true)
      \/ (types.IsTimestampCompatible t = true
          /\ types.IsTimestampCompatible other = true).
Proof.
  unfold types.IsComparableWith.
  destruct (Z.eqb_spec t other) as [->|Hne]; [tauto|].
  destruct (types.IsNumber t), (types.IsNumber other); simpl;
    try tauto;
    destruct (types.IsTimestampCompatible t),
      (types.IsTimestampCompatible other); simpl;
    intuition congruence.
Qed.

(** C3.  Two value types (so the types of any two values) are comparable
    exactly when they are the same type, or both numeric (integer or
    double), or both timestamp-compatible, and the timestamp-compatible
    types are exactly timestamp and text; every comparison method answers
    two values of comparable types with a boolean and two values of
    incompatible types with the error [TypeMismatch], never with a
    boolean. *)
Theorem comparable_iff_same_numeric_or_timestamp
  (order : document.Value -> document.Value -> comparison)
  (a b : document.Value) :
  (forall t other : types.ValueType,
      types.IsComparableWith t other = true
      <-> t = other
          \/ ((t = types.TypeInteger \/ t = types.TypeDouble)
              /\ (other = types.TypeInteger \/ other = types.TypeDouble))
          \/ ((t = types.TypeTimestamp \/ t = types.TypeText)
              /\ (other = types.TypeTimestamp \/ other = types.TypeText)))
  /\ (forall t : types.ValueType,
         types.IsTimestampCompatible t = true
         <-> t = types.TypeTimestamp \/ t = types.TypeText)
  /\ Forall
       (fun cmp : document.Value -> document.Value -> result Error bool =>
          match cmp a b with
          | Ok _ =>
              types.IsComparableWith (document.Type_ a) (document.Type_ b)
              = true
          | Err e =>
              e = TypeMismatch
              /\ types.IsComparableWith (document.Type_ a) (document.Type_ b)
                 = false
          end)
       [document.EQ order; document.GT order; document.GTE order;
        document.LT order; document.LTE order].
Proof.
  split; [|split].
  - intros t other. rewrite IsComparableWith_iff.
    rewrite !IsNumber_iff, !IsTimestampCompatible_iff. tauto.
  - apply IsTimestampCompatible_iff.
  - repeat constructor;
      unfold document.EQ, document.GT, document.GTE, document.LT,
        document.LTE, document.compareWith, document.Compare;
      destruct (types.IsComparableWith _ _); auto.
Qed.

(** ** update.go: the SET and UNSET clauses *)

Section update_clauses.
Import scanner parser.

Lemma skipWhitespace_token ws i un rd :
  allWS ws -> tok i <> WS ->
  skipWhitespace rd (ws ++ i :: un) = (i, mkParser (i :: rev ws ++ rd) un).
Proof.
  intros Hws Hi. revert rd. induction Hws as [|w ws Hw _ IH]; intros rd; simpl.
  - destruct (tok i); congruence.
  - rewrite Hw. rewrite IH. by rewrite <- app_assoc.
Qed.

Lemma dropWS_split (l : list Item) :
  exists ws, allWS ws /\ l = ws ++ dropWS l
             /\ match dropWS l with i :: _ => tok i <> WS | [] => True end.
Proof.
  induction l as [|i l (ws & Hws & Heq & Hhd)]; simpl.
  - exists []. repeat split; constructor.
  - destruct (tok i) eqn:Hi;
      try (exists []; repeat split; [constructor|simpl; congruence]).
    exists (i :: ws). repeat split; [by constructor| |done].
    simpl. by rewrite <- Heq.
Qed.

Lemma skipWhitespace_end ws rd :
  allWS ws ->
  skipWhitespace rd ws
  = (mkItem EOF (endPos (rev ws ++ rd)) "",
     mkParser (mkItem EOF (endPos (rev ws ++ rd)) "" :: rev ws ++ rd) []).
Proof.
  intros Hws. revert rd. induction Hws as [|w ws Hw _ IH]; intros rd; simpl.
  - done.
  - rewrite Hw, IH. by rewrite <- app_assoc.
Qed.

(** The loop, once the first field is read: it records the fields that
    follow and stops before what is not a comma. *)
Lemma parseUnsetClauseLoop_more fs toks :
  MoreFields fs toks ->
  forall fuel rest rd acc,
    endsClause rest -> (length fs < fuel)%nat ->
    exists rd',
      parseUnsetClauseLoop fuel false acc (mkParser rd (toks ++ rest))
      = (Ok (acc ++ fs), mkParser rd' (dropWS rest)).
Proof.
  induction 1 as [|ws pc lc ws' pf f fs toks Hws Hws' _ IH];
    intros fuel rest rd acc Hrest Hfuel;
    (destruct fuel as [|fuel]; [simpl in Hfuel; lia|]).
  - destruct (dropWS_split rest) as (ws & Hws & Heq & Hhd).
    unfold endsClause in Hrest. rewrite app_nil_r. simpl.
    unfold mbind, parser_bind, bind, ScanIgnoreWhitespace. simpl.
    destruct (dropWS rest) as [|i un]; rewrite Heq; clear Heq.
    + rewrite app_nil_r, skipWhitespace_end by done. simpl.
      eexists. reflexivity.
    + rewrite skipWhitespace_token by done. simpl.
      destruct Hrest as [Hc He].
      destruct (decide (tok i = COMMA)) as [?|_]; [done|]. simpl.
      unfold Unscan. simpl.
      eexists. destruct (tok i); try reflexivity; congruence.
  - simpl. unfold mbind, parser_bind, bind, ScanIgnoreWhitespace. simpl.
    rewrite <- app_assoc. simpl.
    rewrite skipWhitespace_token by done. simpl.
    unfold parseIdent, mbind, parser_bind, bind, ScanIgnoreWhitespace. simpl.
    rewrite <- app_assoc. simpl.
    rewrite skipWhitespace_token by done. simpl.
    unfold ret.
    destruct (IH fuel rest
                (mkItem IDENT pf f :: rev ws'
                   ++ mkItem COMMA pc lc :: rev ws ++ rd)
                (acc ++ [f]) Hrest) as [rd' Hrd']; [simpl in Hfuel; lia|].
    exists rd'. rewrite Hrd'. by rewrite <- app_assoc.
Qed.

Lemma MoreFields_length fs toks :
  MoreFields fs toks -> (2 * length fs <= length toks)%nat.
Proof.
  induction 1; simpl; [lia|]. rewrite !length_app. simpl.
  rewrite !length_app. simpl. lia.
Qed.

End update_clauses.

(** C10, as written, fails on the path [a.b]: [parseUnsetClause] reads one
    identifier, so the statement records the field [a], where the SET clause
    records the path [a.b], and the tokens [.b] are left unread. *)
Lemma unset_path_counterexample :
  ~ UnsetRecordsPath "t"
      [document.FieldName "a"; document.FieldName "b"]
  /\ SetRecordsPath "t"
       [document.FieldName "a"; document.FieldName "b"] "1"
  /\ (let '(r, ps) := parser.parseUpdateStatement
                        (parser.NewParser "t UNSET a.b") in
      r = Ok (query.mkUpdateStmt "t" [] ["a"%string] None)
      /\ List.map scanner.lit (parser.unread ps) = ["."; "b"]%string).
Proof.
  split; [|split].
  - intros (stmt & ps & Hparse & Hfields).
    vm_compute in Hparse. injection Hparse as <- <-.
    vm_compute in Hfields. discriminate.
  - do 3 eexists. split; vm_compute; reflexivity.
  - vm_compute. split; reflexivity.
Qed.

(** C10, amended.  The UNSET clause takes a list of identifiers separated
    by commas: [parseUnsetClause] succeeds on every such list, records
    exactly its identifiers in their order, and leaves unread what follows
    the list when that is not a comma (a [.] after an identifier, a WHERE,
    the end of the input). *)
Theorem parseUnsetClause_records_identifiers
  (fs : list string) (toks rest rd : list scanner.Item) :
  FieldList fs toks -> endsClause rest ->
  exists rd',
    parser.parseUnsetClause (parser.mkParser rd (toks ++ rest))
    = (Ok fs, parser.mkParser rd' (dropWS rest)).
Proof.
  intros Hfs Hrest. destruct Hfs as [ws pf f fs toks Hws Hmore].
  unfold parser.parseUnsetClause, parser.withFuel. simpl.
  unfold parser.parseIdent, parser.ScanIgnoreWhitespace.
  unfold mbind, parser.parser_bind, parser.bind. simpl.
  rewrite <- app_assoc. simpl.
  rewrite skipWhitespace_token by done. simpl.
  apply parseUnsetClauseLoop_more with (acc := [f]); [done..|].
  apply MoreFields_length in Hmore. rewrite !length_app. simpl.
  rewrite length_app. lia.
Qed.

(** The amended claim on the tokens of [a.b, c WHERE x]: no hypothesis is
    vacuous. *)
Lemma parseUnsetClause_records_identifiers_witness :
  FieldList ["a"%string] (firstn 1 (scanner.Scan "a.b"))
  /\ endsClause (skipn 1 (scanner.Scan "a.b"))
  /\ exists rd',
      parser.parseUnsetClause
        (parser.mkParser []
           (firstn 1 (scanner.Scan "a.b") ++ skipn 1 (scanner.Scan "a.b")))
      = (Ok ["a"%string],
         parser.mkParser rd' (dropWS (skipn 1 (scanner.Scan "a.b")))).
Proof.
  assert (Hf : FieldList ["a"%string] (firstn 1 (scanner.Scan "a.b"))).
  { apply (FieldList_intro [] (scanner.mkPos 0 0) "a" [] []);
      constructor. }
  assert (He : endsClause (skipn 1 (scanner.Scan "a.b"))).
  { vm_compute. split; discriminate. }
  split; [exact Hf|]. split; [exact He|].
  exact (parseUnsetClause_records_identifiers _ _ _ [] Hf He).
Defined.

(** ** Transactions *)

(** C9.  A transaction that was rolled back is done: Commit on it is the
    error [TransactionClosed] and a second Rollback succeeds and changes
    nothing; Commit on a read-only transaction is an error (and
    [TransactionReadOnly] on one fresh from [Begin]); and after a Commit
    that succeeded, as the first Commit of a writable transaction does, a
    second Commit is the error [TransactionClosed]. *)
Theorem commit_rollback_protocol :
  (forall tx db,
      let '(r, tx1, db1) := database.Rollback tx db in
      r = Ok tt
      /\ database.Commit tx1 db1 = (Err TransactionClosed, tx1, db1)
      /\ database.Rollback tx1 db1 = (Ok tt, tx1, db1))
  /\ (forall s d db,
         exists e,
           database.Commit (database.mkTransaction s false d) db
           = (Err e, database.mkTransaction s false d, db))
  /\ (forall db,
         match database.Begin false db with
         | Some (tx, db') =>
             database.Commit tx db' = (Err TransactionReadOnly, tx, db')
         | None => False
         end)
  /\ (forall tx db,
         let '(r, tx1, db1) := database.Commit tx db in
         match r with
         | Ok _ =>
             database.Commit tx1 db1 = (Err TransactionClosed, tx1, db1)
         | Err _ => tx1 = tx /\ db1 = db
         end)
  /\ (forall db,
         match database.Begin true db with
         | Some (tx, db') => fst (fst (database.Commit tx db')) = Ok tt
         | None => kv.writer (database.ng db) = true
         end).
Proof.
  split; [|split; [|split; [|split]]].
  - intros [[m w c] tw []] db; simpl; [done|]. by destruct c.
  - intros s d db. destruct d; simpl; eauto.
  - intros [[m w]]. simpl. done.
  - intros [[m w c] tw d] [[cm cw]]. unfold database.Commit. simpl.
    destruct d; [done|]. destruct tw; [|done]. simpl.
    unfold kv.Commit. simpl. destruct c; [done|]. destruct w; done.
  - intros [[m []]]; simpl; done.
Qed.

(** *** What an operation keeps of the state *)

Section respects.
Import database.

Lemma setView_view tx : setView (view tx) tx = tx.
Proof. by destruct tx as [[]]. Qed.

Lemma setView_setView m m' tx : setView m (setView m' tx) = setView m tx.
Proof. done. Qed.

Lemma view_setView m tx : view (setView m tx) = m.
Proof. done. Qed.

Context (P : relation (gmap (list Byte.byte) Payload)) `{!PreOrder P}.

Lemma respects_ret {A : Type} (a : A) : respects P (mret a).
Proof.
  intros tx r tx' [= <- <-]. by rewrite setView_view.
Qed.

Lemma respects_fail {A : Type} (e : Error) : respects P (@fail A e).
Proof.
  intros tx r tx' [= <- <-]. by rewrite setView_view.
Qed.

Lemma respects_bind {A B : Type} (m : T A) (k : A -> T B) :
  respects P m -> (forall a, respects P (k a)) -> respects P (m ≫= k).
Proof.
  intros Hm Hk tx r tx'. unfold mbind, tx_bind, bind.
  destruct (m tx) as [[a|e] tx1] eqn:Hmtx; intros Hr.
  - destruct (Hm _ _ _ Hmtx) as [Heq1 HP1].
    destruct (Hk _ _ _ _ Hr) as [Heq2 HP2]. split.
    + rewrite Heq2, Heq1. done.
    + by etrans.
  - injection Hr as <- <-. eauto.
Qed.

Lemma respects_try {A : Type} (m : T A) : respects P m -> respects P (try m).
Proof.
  intros Hm tx r tx'. unfold try.
  destruct (m tx) as [r1 tx1] eqn:Hmtx. intros [= <- <-]. eauto.
Qed.

Lemma respects_mapError {A : Type} e0 e1 (m : T A) :
  respects P m -> respects P (mapError e0 e1 m).
Proof.
  intros Hm tx r tx'. unfold mapError.
  destruct (m tx) as [[a|e] tx1] eqn:Hmtx; intros [= <- <-]; eauto.
Qed.

Lemma respects_forEach {A : Type} (f : A -> T unit) (l : list A) :
  (forall a, respects P (f a)) -> respects P (forEach f l).
Proof.
  intros Hf. induction l as [|a l IH]; simpl.
  - apply (respects_ret tt).
  - apply respects_bind; [apply Hf|done].
Qed.

Lemma respects_reading {A : Type} (f : gmap (list Byte.byte) Payload -> result Error A) :
  respects P (onSession (kv.reading f)).
Proof.
  intros [[m w c] tw d] r tx'. unfold onSession, kv.reading, view. simpl.
  destruct c; intros [= <- <-]; done.
Qed.

Lemma respects_mutating
  (f : gmap (list Byte.byte) Payload
       -> result Error (gmap (list Byte.byte) Payload)) :
  (forall m m', f m = Ok m' -> P m m') ->
  respects P (onSession (kv.mutating f)).
Proof.
  intros Hf [[m w c] tw d] r tx'. unfold onSession, kv.mutating, view. simpl.
  destruct c; [intros [= <- <-]; done|].
  destruct w; simpl; [|intros [= <- <-]; done].
  destruct (f m) as [m'|e] eqn:Hfm; intros [= <- <-]; [|done].
  split; [done|]. by apply Hf.
Qed.

End respects.

(** Steps through an operation built from the ones above. *)
Ltac solve_preorder :=
  try match goal with |- PreOrder _ => apply _ end.

Ltac respects_step :=
  first
    [ apply respects_bind; [..|intros ?]; solve_preorder
    | apply respects_ret; solve_preorder
    | apply respects_fail; solve_preorder
    | apply respects_try; solve_preorder
    | apply respects_mapError; solve_preorder
    | apply respects_forEach; [..|intros ?]; solve_preorder
    | apply respects_reading; solve_preorder
    | match goal with
      | |- respects _ (if ?b then _ else _) => destruct b
      | |- respects _ (match ?x with _ => _ end) => destruct x
      end ].

(** *** Reads and writes of the session, step by step *)

Section session_steps.
Import database.

Lemma Get_eq k tx :
  onSession (kv.Get k) tx
  = (if kv.closed (session tx) then Err TransactionClosed
     else kv.get (view tx) k, tx).
Proof. destruct tx as [[m w []] tw d]; done. Qed.

Lemma Exists_eq k tx :
  onSession (kv.Exists k) tx
  = (if kv.closed (session tx) then Err TransactionClosed
     else kv.exists_ (view tx) k, tx).
Proof. destruct tx as [[m w []] tw d]; done. Qed.

Lemma Iterator_eq opts tx :
  onSession (kv.Iterator opts) tx
  = (if kv.closed (session tx) then Err TransactionClosed
     else Ok (merge_sort kv.entryLe
                (map_to_list
                   (filter (fun kv => kv.inBounds opts (fst kv) = true)
                      (view tx)))), tx).
Proof. destruct tx as [[m w []] tw d]; done. Qed.

Lemma mutating_eq f tx :
  onSession (kv.mutating f) tx
  = if kv.closed (session tx) then (Err TransactionClosed, tx)
    else if negb (kv.writable (session tx)) then (Err TransactionReadOnly, tx)
    else match f (view tx) with
         | Ok m => (Ok tt, setView m tx)
         | Err e => (Err e, tx)
         end.
Proof.
  destruct tx as [[m [] []] tw d]; try done.
  unfold onSession, kv.mutating, view. simpl. by destruct (f m).
Qed.

Lemma writing_setView m tx : writing (setView m tx) <-> writing tx.
Proof. done. Qed.

Lemma DeleteRange_eq p e tx :
  writing tx ->
  onSession (kv.DeleteRange p e) tx
  = (Ok tt,
     setView
       (filter (fun kv => kv.inBounds (kv.mkIterOptions (Some p) e) (fst kv)
                          = false) (view tx)) tx).
Proof.
  intros [Hopen Hw]. unfold kv.DeleteRange. by rewrite mutating_eq, Hopen, Hw.
Qed.

Lemma Delete_eq k v tx :
  writing tx -> view tx !! k = Some v ->
  onSession (kv.Delete k) tx = (Ok tt, setView (delete k (view tx)) tx).
Proof.
  intros [Hopen Hw] Hk. unfold kv.Delete.
  by rewrite mutating_eq, Hopen, Hw, Hk.
Qed.

Lemma Insert_eq k v tx :
  writing tx -> view tx !! k = None ->
  onSession (kv.Insert k v) tx = (Ok tt, setView (<[k:=v]> (view tx)) tx).
Proof.
  intros [Hopen Hw] Hk. unfold kv.Insert.
  by rewrite mutating_eq, Hopen, Hw, Hk.
Qed.

Lemma Put_eq k v tx :
  writing tx ->
  onSession (kv.Put k v) tx = (Ok tt, setView (<[k:=v]> (view tx)) tx).
Proof.
  intros [Hopen Hw]. unfold kv.Put. by rewrite mutating_eq, Hopen, Hw.
Qed.

#[global] Instance grows_preorder : PreOrder grows.
Proof. split; [by intros m k|]. intros m1 m2 m3 H1 H2 k Hk. auto. Qed.

Lemma Put_grows k v : respects grows (onSession (kv.Put k v)).
Proof.
  apply respects_mutating; [apply _|]. intros m m' [= <-] k' Hk'.
  destruct (decide (k = k')) as [->|Hne].
  - rewrite lookup_insert_eq. eauto.
  - by rewrite lookup_insert_ne.
Qed.

Lemma Insert_grows k v : respects grows (onSession (kv.Insert k v)).
Proof.
  apply respects_mutating; [apply _|]. intros m m' Hf k' Hk'.
  destruct (m !! k) eqn:Hk; [done|]. injection Hf as <-.
  destruct (decide (k = k')) as [->|Hne].
  - rewrite lookup_insert_eq. eauto.
  - by rewrite lookup_insert_ne.
Qed.

Lemma GetTable_respects P `{!PreOrder P} n : respects P (GetTable n).
Proof. unfold GetTable. repeat respects_step. Qed.

Lemma GetIndex_respects P `{!PreOrder P} n : respects P (GetIndex n).
Proof. unfold GetIndex. repeat respects_step. Qed.

Lemma Iterate_respects P `{!PreOrder P} t : respects P (Iterate t).
Proof. unfold Iterate. repeat respects_step. Qed.

Lemma Indexes_respects P `{!PreOrder P} n : respects P (Indexes n).
Proof. unfold Indexes, schemaRows. repeat respects_step. Qed.

End session_steps.

Ltac respects_reads :=
  first
    [ apply GetTable_respects; apply _
    | apply GetIndex_respects; apply _
    | apply Iterate_respects; apply _
    | apply Indexes_respects; apply _ ].

Ltac respects_go := repeat first [respects_reads | respects_step].

Section growth.
Import database.

Lemma createIndex_grows cfg b : respects grows (createIndex cfg b).
Proof.
  unfold createIndex, populate, indexSet. respects_go;
    first [apply Put_grows | apply Insert_grows].
Qed.

Lemma CreateTable_grows cfg : respects grows (CreateTable cfg).
Proof.
  unfold CreateTable. respects_go;
    first [apply Put_grows | apply Insert_grows | apply createIndex_grows].
Qed.

End growth.

(** *** Rollback *)

Section rollback.
Import database.

Lemma CreateTable_Ok_fresh cfg tx tx1 :
  CreateTable cfg tx = (Ok tt, tx1) ->
  view tx !! catalogKey (name cfg) = None
  /\ String.eqb (name cfg) schemaTableName = false
  /\ kv.closed (session tx) = false.
Proof.
  unfold CreateTable, mbind, tx_bind, bind. rewrite Exists_eq.
  destruct (kv.closed (session tx)); [done|]. unfold kv.exists_.
  destruct (view tx !! catalogKey (name cfg)); simpl; [done|].
  destruct (String.eqb (name cfg) schemaTableName); done.
Qed.

Lemma createIndex_Ok_fresh cfg b tx tx1 :
  createIndex cfg b tx = (Ok tt, tx1) ->
  view tx !! catalogKey (index_name cfg) = None.
Proof.
  unfold createIndex, mbind, tx_bind, bind. rewrite Exists_eq.
  destruct (kv.closed (session tx)); [done|]. unfold kv.exists_.
  by destruct (view tx !! catalogKey (index_name cfg)).
Qed.

Lemma GetTable_absent n tx :
  kv.closed (session tx) = false ->
  String.eqb n schemaTableName = false ->
  view tx !! catalogKey n = None ->
  GetTable n tx = (Err TableNotFound, tx).
Proof.
  intros Hopen Hn Hk. unfold GetTable, mbind, tx_bind, bind, try.
  rewrite Hn, Get_eq, Hopen. unfold kv.get. by rewrite Hk.
Qed.

Lemma GetIndex_absent n tx :
  kv.closed (session tx) = false ->
  view tx !! catalogKey n = None ->
  GetIndex n tx = (Err IndexNotFound, tx).
Proof.
  intros Hopen Hk. unfold GetIndex, mbind, tx_bind, bind, try.
  rewrite Get_eq, Hopen. unfold kv.get. by rewrite Hk.
Qed.

Lemma Begin_view w db tx db1 :
  Begin w db = Some (tx, db1) ->
  view tx = kv.committed (ng db)
  /\ kv.closed (session tx) = false
  /\ kv.committed (ng db1) = kv.committed (ng db).
Proof.
  unfold Begin, kv.Begin. destruct (w && kv.writer (ng db)); [done|].
  by intros [= <- <-].
Qed.

Lemma Rollback_committed tx db :
  let '(r, _, db1) := Rollback tx db in
  r = Ok tt /\ kv.committed (ng db1) = kv.committed (ng db).
Proof.
  destruct tx as [[m w c] tw []], db as [[cm cw]]; simpl; [done|].
  by destruct c.
Qed.

End rollback.

(** C8.  A writable transaction creates a table (and then, or instead, an
    index) and is rolled back, whatever its entries [m] are by then: the
    rollback succeeds, the committed entries are those from before the
    transaction, and in a read-only transaction begun afterwards the lookup
    of the table fails with [TableNotFound] and the lookup of the index with
    [IndexNotFound]. *)
Theorem rollback_hides_created_table
  (db db1 db2 db3 : database.DB) (tx tx1 tx3 txr : database.Transaction)
  (cfg : database.TableConfig) (m : gmap (list Byte.byte) database.Payload)
  (r : result Error unit) :
  database.Begin true db = Some (tx, db1) ->
  database.CreateTable cfg tx = (Ok tt, tx1) ->
  database.Rollback (setView m tx) db1 = (r, tx3, db2) ->
  database.Begin false db2 = Some (txr, db3) ->
  r = Ok tt
  /\ kv.committed (database.ng db2) = kv.committed (database.ng db)
  /\ database.GetTable (database.name cfg) txr = (Err TableNotFound, txr)
  /\ (forall icfg tx2,
         database.CreateIndex icfg tx1 = (Ok tt, tx2)
         \/ database.CreateIndex icfg tx = (Ok tt, tx2) ->
         database.GetIndex (database.index_name icfg) txr
         = (Err IndexNotFound, txr)).
Proof.
  intros Hbegin Hcreate Hrollback Hreader.
  destruct (Begin_view _ _ _ _ Hbegin) as (Hview & Hopen & Hdb1).
  destruct (Begin_view _ _ _ _ Hreader) as (Hviewr & Hopenr & _).
  pose proof (Rollback_committed (setView m tx) db1) as Hrb.
  rewrite Hrollback in Hrb. destruct Hrb as [-> Hdb2].
  assert (Hsame : view txr = view tx) by congruence.
  destruct (CreateTable_Ok_fresh _ _ _ Hcreate) as (Hfresh & Hname & _).
  split; [done|]. split; [congruence|]. split.
  - apply GetTable_absent; [done..|]. by rewrite Hsame.
  - intros icfg tx2 Hindex. apply GetIndex_absent; [done|]. rewrite Hsame.
    unfold database.CreateIndex in Hindex.
    destruct Hindex as [Hindex|Hindex];
      apply createIndex_Ok_fresh in Hindex; [|exact Hindex].
    destruct (CreateTable_grows cfg _ _ _ Hcreate) as [_ Hgrows].
    destruct (view tx !! database.catalogKey (database.index_name icfg))
      as [p|] eqn:Hk; [|done].
    destruct (Hgrows (database.catalogKey (database.index_name icfg)))
      as [p' Hp']; [by rewrite Hk|]. congruence.
Qed.

(** The theorem on scenario S6. *)
Lemma rollback_hides_created_table_witness :
  database.Begin true database.New = Some (scenario.newTestDB, scenario.s6_db1)
  /\ database.CreateTable scenario.s6_table scenario.newTestDB
     = (Ok tt, scenario.s6_tx1)
  /\ database.CreateIndex scenario.s6_index scenario.s6_tx1
     = (Ok tt, scenario.s6_tx2)
  /\ database.Rollback (setView (view scenario.s6_tx2) scenario.newTestDB)
       scenario.s6_db1
     = (Ok tt, scenario.s6_rolled, scenario.s6_db2)
  /\ database.Begin false scenario.s6_db2
     = Some (scenario.s6_reader, scenario.s6_db3)
  /\ database.GetTable "table" scenario.s6_reader
     = (Err TableNotFound, scenario.s6_reader)
  /\ database.GetIndex "idx" scenario.s6_reader
     = (Err IndexNotFound, scenario.s6_reader).
Proof.
  assert (H1 : database.Begin true database.New
               = Some (scenario.newTestDB, scenario.s6_db1))
    by (vm_compute; reflexivity).
  assert (H2 : database.CreateTable scenario.s6_table scenario.newTestDB
               = (Ok tt, scenario.s6_tx1)) by (vm_compute; reflexivity).
  assert (H3 : database.CreateIndex scenario.s6_index scenario.s6_tx1
               = (Ok tt, scenario.s6_tx2)) by (vm_compute; reflexivity).
  assert (H4 : database.Rollback
                 (setView (view scenario.s6_tx2) scenario.newTestDB)
                 scenario.s6_db1
               = (Ok tt, scenario.s6_rolled, scenario.s6_db2))
    by (vm_compute; reflexivity).
  assert (H5 : database.Begin false scenario.s6_db2
               = Some (scenario.s6_reader, scenario.s6_db3))
    by (vm_compute; reflexivity).
  destruct (rollback_hides_created_table _ _ _ _ _ _ _ _ _ _ _
              H1 H2 H4 H5) as (_ & _ & Ht & Hi).
  exact (conj H1 (conj H2 (conj H3 (conj H4 (conj H5 (conj Ht
           (Hi scenario.s6_index scenario.s6_tx2 (or_introl H3)))))))).
Defined.

(** ** The catalog *)

Section catalog_facts.
Import encoding database.

Lemma bind_Ok {A B : Type} (m : T A) (k : A -> T B) tx b tx' :
  (m ≫= k) tx = (Ok b, tx') ->
  exists a tx1, m tx = (Ok a, tx1) /\ k a tx1 = (Ok b, tx').
Proof.
  unfold mbind, tx_bind, bind. destruct (m tx) as [[a|e] tx1]; [eauto|done].
Qed.

Lemma bind_eq {A B : Type} (m : T A) (k : A -> T B) tx a tx1 :
  m tx = (Ok a, tx1) -> (m ≫= k) tx = k a tx1.
Proof. unfold mbind, tx_bind, bind. by intros ->. Qed.

Lemma GetIndex_row n i tx :
  kv.closed (session tx) = false ->
  view tx !! catalogKey n = Some (IndexRow i) ->
  GetIndex n tx = (Ok i, tx).
Proof.
  intros Hopen Hk. unfold GetIndex, mbind, tx_bind, bind, try.
  rewrite Get_eq, Hopen. unfold kv.get. by rewrite Hk.
Qed.

Lemma GetTable_row n t tx :
  kv.closed (session tx) = false ->
  String.eqb n schemaTableName = false ->
  view tx !! catalogKey n = Some (TableRow t) ->
  GetTable n tx = (Ok t, tx).
Proof.
  intros Hopen Hn Hk. unfold GetTable, mbind, tx_bind, bind, try.
  rewrite Hn, Get_eq, Hopen. unfold kv.get. by rewrite Hk.
Qed.

Lemma prefixBytes_inj p q :
  0 <= p < 2 ^ 64 -> 0 <= q < 2 ^ 64 -> prefixBytes p = prefixBytes q -> p = q.
Proof.
  intros Hp Hq H. apply bigEndian_inj in H.
  change (256 ^ Z.of_nat 8) with (2 ^ 64) in H.
  by rewrite !Z.mod_small in H.
Qed.

Lemma prefixBytes_length p : length (prefixBytes p) = 8%nat.
Proof. apply bigEndian_length. Qed.

(** The keys under two different prefix numbers are apart. *)
Lemma hasPrefix_other p q x :
  0 <= p < 2 ^ 64 -> 0 <= q < 2 ^ 64 -> p <> q ->
  hasPrefix (prefixBytes p) (prefixBytes q ++ x) = false.
Proof.
  intros Hp Hq Hne.
  destruct (hasPrefix (prefixBytes p) (prefixBytes q ++ x)) eqn:E; [|done].
  apply hasPrefix_same_length in E; [|by rewrite !prefixBytes_length].
  by apply prefixBytes_inj in E.
Qed.

Lemma catalogKey_outside p n :
  validPrefix p -> hasPrefix (prefixBytes p) (catalogKey n) = false.
Proof.
  intros [Hlo Hhi]. unfold firstPrefix in Hlo.
  apply hasPrefix_other; unfold schemaPrefix; lia.
Qed.

Lemma catalogKey_not_sequenceKey n : catalogKey n <> sequenceKey.
Proof.
  intros H. apply (f_equal length) in H. unfold catalogKey, sequenceKey in H.
  rewrite length_app, !prefixBytes_length in H. simpl in H. lia.
Qed.

(** What [DeleteRange] over a prefix leaves. *)
Lemma deleteRange_lookup (m : gmap (list Byte.byte) Payload) p k :
  filter (fun kv => kv.inBounds (kv.mkIterOptions (Some p) (prefixEnd p))
                      (fst kv) = false) m !! k
  = if hasPrefix p k then None else m !! k.
Proof.
  destruct (hasPrefix p k) eqn:E.
  - apply map_lookup_filter_None. right. intros v _. simpl.
    by rewrite inBounds_prefixRange, E.
  - destruct (m !! k) as [v|] eqn:Hk.
    + apply map_lookup_filter_Some. split; [done|]. simpl.
      by rewrite inBounds_prefixRange.
    + apply map_lookup_filter_None. by left.
Qed.

Lemma dropIndex_Ok i tx :
  writing tx ->
  validPrefix (index_prefix i) ->
  is_Some (view tx !! catalogKey (index_name (index_config i))) ->
  exists m,
    dropIndex i tx = (Ok tt, setView m tx)
    /\ forall k,
        m !! k
        = if hasPrefix (prefixBytes (index_prefix i)) k then None
          else if decide (k = catalogKey (index_name (index_config i)))
               then None else view tx !! k.
Proof.
  intros Hw Hvalid [row Hrow]. unfold dropIndex, indexTruncate.
  rewrite (bind_eq _ _ _ _ _ (DeleteRange_eq _ _ _ Hw)).
  erewrite Delete_eq; [|done|].
  2:{ rewrite view_setView, deleteRange_lookup, catalogKey_outside by done.
      exact Hrow. }
  eexists. split; [reflexivity|]. intros k. rewrite view_setView.
  destruct (decide (k = catalogKey (index_name (index_config i)))) as [->|Hne].
  - rewrite lookup_delete_eq. by destruct (hasPrefix _ _).
  - rewrite lookup_delete_ne by done. apply deleteRange_lookup.
Qed.

#[global] Instance keeps_preorder : PreOrder keeps.
Proof.
  split; [by intros m k v|]. intros m1 m2 m3 H1 H2 k v Hk Hv. auto.
Qed.

Lemma Put_sequence_keeps v : respects keeps (onSession (kv.Put sequenceKey v)).
Proof.
  apply respects_mutating; [apply _|]. intros m m' [= <-] k w Hk Hw.
  by rewrite lookup_insert_ne.
Qed.

Lemma Insert_keeps k v : respects keeps (onSession (kv.Insert k v)).
Proof.
  apply respects_mutating; [apply _|]. intros m m' Hf k' w _ Hw.
  destruct (m !! k) eqn:Hk; [done|]. injection Hf as <-.
  rewrite lookup_insert_ne; [done|]. congruence.
Qed.

Lemma populate_keeps i t : respects keeps (populate i t).
Proof. unfold populate, indexSet. respects_go. apply Insert_keeps. Qed.

Lemma createIndex_keeps cfg b : respects keeps (createIndex cfg b).
Proof.
  unfold createIndex, populate, indexSet. respects_go;
    first [apply Put_sequence_keeps | apply Insert_keeps].
Qed.

Lemma Insert_Ok_lookup k v tx tx' :
  onSession (kv.Insert k v) tx = (Ok tt, tx') -> view tx' !! k = Some v.
Proof.
  unfold kv.Insert. rewrite mutating_eq.
  destruct (kv.closed (session tx)); [done|].
  destruct (negb (kv.writable (session tx))); [done|].
  destruct (view tx !! k); [done|]. intros [= <-].
  rewrite view_setView. apply lookup_insert_eq.
Qed.

(** A created index has its row in the catalog, with the configuration it
    was created with. *)
Lemma createIndex_Ok_row cfg b tx tx' :
  createIndex cfg b tx = (Ok tt, tx') ->
  exists p,
    view tx' !! catalogKey (index_name cfg)
    = Some (IndexRow (mkIndexInfo cfg p b)).
Proof.
  unfold createIndex. intros H.
  apply bind_Ok in H as (e & tx1 & _ & H). destruct e; [done|].
  apply bind_Ok in H as (t & tx2 & _ & H).
  destruct (read_only (table_config t)); [done|].
  apply bind_Ok in H as (p & tx3 & _ & H).
  apply bind_Ok in H as ([] & tx4 & Hrow & H).
  apply Insert_Ok_lookup in Hrow.
  destruct (populate_keeps _ _ _ _ _ H) as [_ Hkeeps].
  exists p. apply Hkeeps; [apply catalogKey_not_sequenceKey|done].
Qed.

Lemma forEach_Ok_elem {A : Type} (f : A -> T unit) l a tx tx' :
  (forall x, respects keeps (f x)) ->
  forEach f l tx = (Ok tt, tx') -> In a l ->
  exists tx1 tx2, f a tx1 = (Ok tt, tx2) /\ keeps (view tx2) (view tx').
Proof.
  intros Hf. revert tx. induction l as [|x l IH]; intros tx H Ha; [done|].
  simpl in H. apply bind_Ok in H as ([] & tx1 & Hx & H).
  destruct Ha as [->|Ha].
  - exists tx, tx1. split; [done|].
    by destruct (respects_forEach keeps f l Hf _ _ _ H).
  - eauto.
Qed.

(** A created table has the index of each of its unique and primary-key
    constraints in the catalog, bound to the constraint. *)
Lemma CreateTable_Ok_constraint cfg fc tx tx' :
  CreateTable cfg tx = (Ok tt, tx') ->
  In fc (field_constraints cfg) ->
  is_unique fc || is_primary_key fc = true ->
  exists p,
    view tx' !! catalogKey (constraintIndexName (name cfg) (path fc))
    = Some (IndexRow (mkIndexInfo (constraintIndex (name cfg) fc) p true)).
Proof.
  unfold CreateTable. intros H Hfc Hu.
  apply bind_Ok in H as (e & tx1 & _ & H).
  destruct (e || String.eqb (name cfg) schemaTableName); [done|].
  apply bind_Ok in H as (p & tx2 & _ & H).
  apply bind_Ok in H as ([] & tx3 & _ & H).
  eapply forEach_Ok_elem in H as (tx4 & tx5 & Hcreate & Hkeeps); [|..|exact Hfc].
  - rewrite Hu in Hcreate. apply createIndex_Ok_row in Hcreate as [q Hq].
    exists q. apply Hkeeps; [apply catalogKey_not_sequenceKey|done].
  - intros x. destruct (is_unique x || is_primary_key x).
    + apply createIndex_keeps.
    + apply respects_ret. apply _.
Qed.

Lemma respects_closed {A : Type} P (m : T A) tx r tx' :
  respects P m -> m tx = (r, tx') ->
  kv.closed (session tx') = kv.closed (session tx)
  /\ kv.writable (session tx') = kv.writable (session tx).
Proof. intros Hm H. destruct (Hm _ _ _ H) as [-> _]. done. Qed.

End catalog_facts.


(** * Further properties of the code *)

(** ** types.go: names and comparability of the value types *)

Section value_types.
Import types.




End value_types.



(** X3.  A number is never comparable with a timestamp-compatible type, on
    either side: the integer that the comment of [IsTimestampCompatible]
    lists is not among the types the function accepts. *)
Theorem number_not_comparable_with_timestamp (t u : types.ValueType) :
  types.IsNumber t = true ->
  types.IsTimestampCompatible u = true ->
  types.IsComparableWith t u = false
  /\ types.IsComparableWith u t = false
  /\ types.IsTimestampCompatible t = false.
Proof.
  intros Ht Hu. apply IsNumber_iff in Ht.
  apply IsTimestampCompatible_iff in Hu.
  unfold types.TypeInteger, types.TypeDouble, types.TypeTimestamp,
    types.TypeText in *.
  repeat split.
  - destruct (types.IsComparableWith t u) eqn:E; [|done].
    apply IsComparableWith_iff in E.
    rewrite !IsNumber_iff, !IsTimestampCompatible_iff in E.
    unfold types.TypeInteger, types.TypeDouble, types.TypeTimestamp,
      types.TypeText in *. lia.
  - destruct (types.IsComparableWith u t) eqn:E; [|done].
    apply IsComparableWith_iff in E.
    rewrite !IsNumber_iff, !IsTimestampCompatible_iff in E.
    unfold types.TypeInteger, types.TypeDouble, types.TypeTimestamp,
      types.TypeText in *. lia.
  - destruct (types.IsTimestampCompatible t) eqn:E; [|done].
    apply IsTimestampCompatible_iff in E.
    unfold types.TypeTimestamp, types.TypeText in *. lia.
Qed.

(** The theorem on an integer and a timestamp. *)
Lemma number_not_comparable_with_timestamp_witness :
  types.IsNumber types.TypeInteger = true
  /\ types.IsTimestampCompatible types.TypeTimestamp = true
  /\ types.IsComparableWith types.TypeInteger types.TypeTimestamp = false
  /\ types.IsComparableWith types.TypeTimestamp types.TypeInteger = false
  /\ types.IsTimestampCompatible types.TypeInteger = false.
Proof.
  split; [reflexivity|]. split; [reflexivity|].
  apply (number_not_comparable_with_timestamp types.TypeInteger
           types.TypeTimestamp); reflexivity.
Defined.

(** X4.  A type that is neither a number nor timestamp-compatible (null,
    boolean, blob, array, object, and [TypeAny], the absence of type) is
    comparable with itself only. *)
Theorem lone_type_comparable_with_itself_only (t u : types.ValueType) :
  types.IsNumber t = false ->
  types.IsTimestampCompatible t = false ->
  (types.IsComparableWith t u = true <-> u = t)
  /\ (types.IsComparableWith u t = true <-> u = t).
Proof.
  intros Hn Ht. rewrite !IsComparableWith_iff, Hn, Ht.
  intuition congruence.
Qed.

(** The theorem on [TypeAny] and on null against text. *)
Lemma lone_type_comparable_with_itself_only_witness :
  types.IsAny types.TypeAny = true
  /\ types.IsNumber types.TypeAny = false
  /\ types.IsTimestampCompatible types.TypeAny = false
  /\ (types.IsComparableWith types.TypeAny types.TypeText = true
      <-> types.TypeText = types.TypeAny)
  /\ (types.IsComparableWith types.TypeText types.TypeAny = true
      <-> types.TypeText = types.TypeAny).
Proof.
  split; [reflexivity|]. split; [reflexivity|]. split; [reflexivity|].
  apply (lone_type_comparable_with_itself_only types.TypeAny types.TypeText);
    reflexivity.
Defined.

(** ** Package kv: [get] and [exists] *)

(** On the reader of a map, [get] and [exists] of the engine are those of
    the package. *)
Lemma get_ofMap {E : Type} (m : gmap document.bytes document.bytes)
  (k : document.bytes) :
  reader.get (E:=E) (reader.ofMap m) k
  = match kv.get m k with
    | Ok v => Ok v
    | Err _ => Err reader.KeyNotFound
    end
  /\ reader.exists_ (E:=E) (reader.ofMap m) k
     = match kv.exists_ m k with
       | Ok b => Ok b
       | Err _ => Err reader.KeyNotFound
       end.
Proof.
  unfold reader.get, reader.exists_, reader.ofMap, kv.get, kv.exists_.
  by destruct (m !! k).
Qed.

(** X5.  On every reader, failing or not, [exists] and [get] agree:
    [exists] answers [true] exactly for the keys [get] returns a value
    for; it answers [false], without an error, exactly for the keys [get]
    fails on with [ErrKeyNotFound]; it fails exactly when [get] fails with
    another error, which is then the same one; and it never returns
    [ErrKeyNotFound] itself. *)
Theorem exists_agrees_with_get {E : Type} (r : reader.Reader E)
  (k : document.bytes) :
  (reader.exists_ r k = Ok true <-> exists v, reader.get r k = Ok v)
  /\ (reader.exists_ r k = Ok false
      <-> reader.get r k = Err reader.KeyNotFound)
  /\ (forall e, reader.exists_ r k = Err e
                <-> reader.get r k = Err e /\ e <> reader.KeyNotFound).
Proof.
  unfold reader.exists_, reader.get.
  destruct (r k) as [v [e'|]| |e'];
    (split; [|split; [|intros e]]); split;
    first [ discriminate
          | intros [? ?]; discriminate
          | intros [? ?]; congruence
          | intros [= <-]; split; [reflexivity|discriminate]
          | intros [H _]; exact H
          | reflexivity
          | intros _; eexists; reflexivity
          | intros _; reflexivity ].
Qed.

(** ** update.go: what the UPDATE parser accepts and how it fails *)

Section update_parser.
Import scanner parser.

(** [ScanIgnoreWhitespace] never gives the parser tokens back, and takes
    at least one unless it is at the end of the input. *)
Lemma skipWhitespace_shrinks un rd :
  (length (unread (snd (skipWhitespace rd un))) <= length un)%nat
  /\ (tok (fst (skipWhitespace rd un)) <> EOF ->
      (length (unread (snd (skipWhitespace rd un))) < length un)%nat).
Proof.
  revert rd. induction un as [|i un IH]; intros rd; simpl.
  - split; [lia|done].
  - destruct (IH (i :: rd)) as [Hle Hlt].
    destruct (tok i); simpl; split; lia.
Qed.

Lemma parseIdent_eq p :
  parseIdent p
  = let i := fst (skipWhitespace (read p) (unread p)) in
    let p1 := snd (skipWhitespace (read p) (unread p)) in
    match tok i with
    | IDENT => (Ok (lit i), p1)
    | _ => (Err (SyntaxError
                   (newParseError (Tokstr (tok i) (lit i))
                      ["identifier"%string] (pos i))), p1)
    end.
Proof.
  unfold parseIdent, ScanIgnoreWhitespace, mbind, parser_bind, bind.
  destruct (skipWhitespace (read p) (unread p)) as [i p1]. simpl.
  by destruct (tok i).
Qed.

(** An identifier read by [parseIdent] leaves strictly fewer tokens. *)
Lemma parseIdent_Ok p l p1 :
  parseIdent p = (Ok l, p1) ->
  (length (unread p1) < length (unread p))%nat.
Proof.
  rewrite parseIdent_eq. simpl.
  destruct (skipWhitespace_shrinks (unread p) (read p)) as [_ Hlt].
  destruct (tok (fst (skipWhitespace (read p) (unread p)))) eqn:E;
    intros [= <- <-]. apply Hlt. congruence.
Qed.

Lemma parseIdent_Err p e p1 :
  parseIdent p = (Err e, p1) ->
  exists x, e = SyntaxError x /\ Expected x = ["identifier"%string].
Proof.
  rewrite parseIdent_eq. simpl.
  destruct (tok (fst (skipWhitespace (read p) (unread p))));
    intros [= <- <-]; eauto.
Qed.

Lemma unset_loop_first fuel acc p :
  parseUnsetClauseLoop (S fuel) true acc p
  = match parseIdent p with
    | (Ok l, p1) => parseUnsetClauseLoop fuel false (acc ++ [l]) p1
    | (Err e, p1) => (Err e, p1)
    end.
Proof. reflexivity. Qed.

Lemma unset_loop_next fuel acc p :
  parseUnsetClauseLoop (S fuel) false acc p
  = let i := fst (skipWhitespace (read p) (unread p)) in
    let p1 := snd (skipWhitespace (read p) (unread p)) in
    if decide (tok i = COMMA) then
      match parseIdent p1 with
      | (Ok l, p2) => parseUnsetClauseLoop fuel false (acc ++ [l]) p2
      | (Err e, p2) => (Err e, p2)
      end
    else (Ok acc, snd (Unscan p1)).
Proof.
  simpl. unfold mbind, parser_bind, bind, ScanIgnoreWhitespace.
  destruct (skipWhitespace (read p) (unread p)) as [i p1]. simpl.
  destruct (decide (tok i = COMMA)); simpl; [reflexivity|].
  unfold Unscan. by destruct (read p1).
Qed.

(** The loop of the UNSET clause ends within its fuel, with at least one
    field or with the error of [parseIdent]. *)
Lemma parseUnsetClauseLoop_shape fuel :
  forall first acc p,
    (length (unread p) < fuel)%nat ->
    first = true \/ acc <> [] ->
    match fst (parseUnsetClauseLoop fuel first acc p) with
    | Ok fs => fs <> []
    | Err (SyntaxError e) => Expected e = ["identifier"%string]
    | Err OutOfFuel => False
    end.
Proof.
  induction fuel as [|fuel IH]; intros first acc p Hfuel Hacc; [lia|].
  destruct first.
  - rewrite unset_loop_first.
    destruct (parseIdent p) as [[l|e] p1] eqn:Hid.
    + apply parseIdent_Ok in Hid. apply IH; [lia|]. right.
      by destruct acc.
    + apply parseIdent_Err in Hid as (x & -> & Hx). exact Hx.
  - rewrite unset_loop_next. simpl.
    destruct (skipWhitespace_shrinks (unread p) (read p)) as [Hle Hlt].
    destruct (decide (tok (fst (skipWhitespace (read p) (unread p))) = COMMA))
      as [Hcomma|_].
    + destruct (parseIdent (snd (skipWhitespace (read p) (unread p))))
        as [[l|e] p2] eqn:Hid.
      * apply parseIdent_Ok in Hid.
        assert (tok (fst (skipWhitespace (read p) (unread p))) <> EOF)
          as Hne by congruence.
        specialize (Hlt Hne). apply IH; [lia|]. right. by destruct acc.
      * apply parseIdent_Err in Hid as (x & -> & Hx). exact Hx.
    + simpl. by destruct Hacc.
Qed.

End update_parser.


Section update_statement.
Import scanner parser.

Lemma pbind_Ok {A B : Type} (m : M A) (k : A -> M B) p b p' :
  (m ≫= k) p = (Ok b, p') ->
  exists a p1, m p = (Ok a, p1) /\ k a p1 = (Ok b, p').
Proof.
  unfold mbind, parser_bind, bind. destruct (m p) as [[a|e] p1]; [eauto|done].
Qed.

Lemma ScanIgnoreWhitespace_eq p :
  ScanIgnoreWhitespace p = (Ok (nextToken p), afterToken p).
Proof.
  unfold ScanIgnoreWhitespace, nextToken, afterToken.
  by destruct (skipWhitespace (read p) (unread p)).
Qed.

Lemma parseIdent_next p :
  parseIdent p
  = match tok (nextToken p) with
    | IDENT => (Ok (lit (nextToken p)), afterToken p)
    | _ => (Err (unexpected (nextToken p) ["identifier"%string]), afterToken p)
    end.
Proof. rewrite parseIdent_eq. reflexivity. Qed.



(** A SET clause that was read holds at least one pair. *)
Lemma parseSetClauseLoop_nonempty fuel :
  forall first pairs p ps p',
    parseSetClauseLoop fuel first pairs p = (Ok ps, p') ->
    first = true \/ pairs <> [] -> ps <> [].
Proof.
  induction fuel as [|fuel IH]; intros first pairs p ps p' H Hacc; [done|].
  simpl in H. apply pbind_Ok in H as (more & p1 & Hmore & H).
  destruct more.
  - apply pbind_Ok in H as (path & p2 & _ & H).
    apply pbind_Ok in H as ([] & p3 & _ & H).
    apply pbind_Ok in H as (e & p4 & _ & H).
    apply IH in H; [done|]. right. by destruct pairs.
  - injection H as <- <-. destruct Hacc as [->|Hne]; [|done].
    simpl in Hmore. discriminate.
Qed.

End update_statement.

(** X7.  A statement that [parseUpdateStatement] accepts has exactly one
    kind of edit: pairs to set and no field to unset, or fields to unset
    and no pair to set. *)
Theorem update_has_one_kind_of_edit
  (p p' : parser.Parser) (stmt : query.UpdateStmt) :
  parser.parseUpdateStatement p = (Ok stmt, p') ->
  (query.SetPairs stmt <> [] /\ query.UnsetFields stmt = [])
  \/ (query.SetPairs stmt = [] /\ query.UnsetFields stmt <> []).
Proof.
  unfold parser.parseUpdateStatement. intros H.
  apply pbind_Ok in H as (t & p1 & _ & H).
  apply pbind_Ok in H as (i & p2 & _ & H).
  apply pbind_Ok in H as (clause & p3 & Hclause & H).
  apply pbind_Ok in H as (w & p4 & _ & H).
  injection H as <- <-. simpl.
  destruct (scanner.tok i); try discriminate.
  - apply pbind_Ok in Hclause as (pairs & p5 & Hpairs & Hret).
    injection Hret as <- <-. left. split; [|done]. simpl.
    unfold parser.parseSetClause, parser.withFuel in Hpairs.
    eapply parseSetClauseLoop_nonempty; [exact Hpairs|by left].
  - apply pbind_Ok in Hclause as (fields & p5 & Hfields & Hret).
    injection Hret as <- <-. right. split; [done|]. simpl.
    assert (Hshape :
      match fst (parser.parseUnsetClause p2) with
      | Ok fields => fields <> []
      | Err (parser.SyntaxError e) =>
          parser.Expected e = ["identifier"%string]
      | Err parser.OutOfFuel => False
      end).
    { unfold parser.parseUnsetClause, parser.withFuel.
      apply parseUnsetClauseLoop_shape; [lia|by left]. }
    by rewrite Hfields in Hshape.
Qed.

(** The theorem on [UPDATE t SET a.b = 1, c = 2]. *)
Lemma update_has_one_kind_of_edit_witness :
  exists stmt p',
    parser.parseUpdateStatement (parser.NewParser "t SET a.b = 1, c = 2")
    = (Ok stmt, p')
    /\ ((query.SetPairs stmt <> [] /\ query.UnsetFields stmt = [])
        \/ (query.SetPairs stmt = [] /\ query.UnsetFields stmt <> [])).
Proof.
  eexists _, _.
  assert (H : parser.parseUpdateStatement
                (parser.NewParser "t SET a.b = 1, c = 2")
              = (Ok (query.mkUpdateStmt "t"
                       [ query.mkUpdateSetPair
                           [document.FieldName "a"; document.FieldName "b"]
                           (expr.LiteralValue (document.VInt64 1));
                         query.mkUpdateSetPair [document.FieldName "c"]
                           (expr.LiteralValue (document.VInt64 2)) ]
                       [] None),
                 snd (parser.parseUpdateStatement
                        (parser.NewParser "t SET a.b = 1, c = 2"))))
    by (vm_compute; reflexivity).
  split; [exact H|]. exact (update_has_one_kind_of_edit _ _ _ H).
Defined.



Section unset_statement.
Import scanner parser.

Lemma parseCondition_none rd rest :
  endsClause rest ->
  (forall i rest', dropWS rest = i :: rest' -> tok i <> WHERE) ->
  parseCondition (mkParser rd (dropWS rest))
  = (Ok None, mkParser rd (dropWS rest)).
Proof.
  intros Hends Hwhere. unfold parseCondition, mbind, parser_bind, bind.
  rewrite ScanIgnoreWhitespace_eq. unfold nextToken, afterToken. simpl.
  destruct (dropWS_split rest) as (ws & _ & _ & Hhd).
  unfold endsClause in Hends.
  destruct (dropWS rest) as [|i rest'] eqn:Hdrop; [reflexivity|].
  destruct Hends as [_ Heof]. specialize (Hwhere i rest' eq_refl).
  simpl. destruct (tok i) eqn:Hi; try congruence; simpl; rewrite ?Hi;
    unfold Unscan; simpl; rewrite ?Hi; reflexivity.
Qed.

End unset_statement.

(** X9.  [UPDATE t UNSET f1, ..., fn] with no WHERE: for every table name,
    every list of identifiers separated by commas, with any white space
    between the tokens, and whatever follows that is neither a comma nor a
    WHERE, [parseUpdateStatement] returns the statement on the table [t]
    that unsets exactly those fields, in their order, with no pair to set
    and no condition, and leaves what follows unread. *)
Theorem update_unset_statement
  (rd ws ws1 toks rest : list scanner.Item) (pt pu : scanner.Pos)
  (t lu : string) (fs : list string) :
  allWS ws -> allWS ws1 -> FieldList fs toks -> endsClause rest ->
  (forall i rest', dropWS rest = i :: rest' -> scanner.tok i <> scanner.WHERE) ->
  exists rd',
    parser.parseUpdateStatement
      (parser.mkParser rd
         (ws ++ scanner.mkItem scanner.IDENT pt t
             :: ws1 ++ scanner.mkItem scanner.UNSET pu lu :: toks ++ rest))
    = (Ok (query.mkUpdateStmt t [] fs None),
       parser.mkParser rd' (dropWS rest)).
Proof.
  intros Hws Hws1 Hfs Hends Hwhere.
  destruct Hfs as [ws2 pf f fs toks Hws2 Hmore].
  unfold parser.parseUpdateStatement, parser.withExpected.
  unfold mbind, parser.parser_bind, parser.bind.
  rewrite parseIdent_next. unfold nextToken, afterToken. simpl.
  rewrite skipWhitespace_token by done. simpl.
  rewrite ScanIgnoreWhitespace_eq. unfold nextToken, afterToken. simpl.
  rewrite skipWhitespace_token by done. simpl.
  unfold parser.parseUnsetClause, parser.withFuel.
  rewrite unset_loop_first, parseIdent_next. unfold nextToken, afterToken.
  simpl. rewrite <- app_assoc. simpl.
  rewrite skipWhitespace_token by done. simpl.
  edestruct (parseUnsetClauseLoop_more fs toks Hmore) as [rd' Hloop];
    [exact Hends| |rewrite Hloop].
  { apply MoreFields_length in Hmore.
    repeat (rewrite ?length_app; simpl). lia. }
  simpl. rewrite parseCondition_none by done. by exists rd'.
Qed.

(** The theorem on the tokens of [t UNSET a, b ;]. *)
Lemma update_unset_statement_witness :
  exists rd',
    parser.parseUpdateStatement (parser.NewParser "t UNSET a, b ;")
    = (Ok (query.mkUpdateStmt "t" [] ["a"; "b"]%string None),
       parser.mkParser rd'
         [scanner.mkItem scanner.SEMICOLON (scanner.mkPos 0 13) ";"]).
Proof.
  apply (update_unset_statement []
           [] [scanner.mkItem scanner.WS (scanner.mkPos 0 1) " "]
           [ scanner.mkItem scanner.WS (scanner.mkPos 0 7) " ";
             scanner.mkItem scanner.IDENT (scanner.mkPos 0 8) "a";
             scanner.mkItem scanner.COMMA (scanner.mkPos 0 9) ",";
             scanner.mkItem scanner.WS (scanner.mkPos 0 10) " ";
             scanner.mkItem scanner.IDENT (scanner.mkPos 0 11) "b" ]
           [ scanner.mkItem scanner.WS (scanner.mkPos 0 12) " ";
             scanner.mkItem scanner.SEMICOLON (scanner.mkPos 0 13) ";" ]
           (scanner.mkPos 0 0) (scanner.mkPos 0 2) "t" "UNSET"
           ["a"; "b"]%string).
  - constructor.
  - repeat constructor.
  - apply (FieldList_intro
             [scanner.mkItem scanner.WS (scanner.mkPos 0 7) " "]
             (scanner.mkPos 0 8) "a" ["b"%string]
             [ scanner.mkItem scanner.COMMA (scanner.mkPos 0 9) ",";
               scanner.mkItem scanner.WS (scanner.mkPos 0 10) " ";
               scanner.mkItem scanner.IDENT (scanner.mkPos 0 11) "b" ]).
    + repeat constructor.
    + apply (MoreFields_cons [] (scanner.mkPos 0 9) ","
               [scanner.mkItem scanner.WS (scanner.mkPos 0 10) " "]
               (scanner.mkPos 0 11) "b" [] []); repeat constructor.
  - simpl. split; discriminate.
  - simpl. intros i rest' [= <- <-]. discriminate.
Defined.

(** ** The query builder of UPDATE *)

Section builder.
Context {Expr TableSelector Tx : Type}.

Lemma fresh_address (h : dsl.Heap Expr) : h !! fresh (dom h) = None.
Proof.
  unfold dsl.Heap in *.
  apply (not_elem_of_dom (D:=gset nat)). apply is_fresh.
Qed.

(** X10.  The pairs of a statement are shared by its copies and by no
    other statement: after [u := Update(ts)], a copy [u.Where(w)] and
    [Set(f, e)] on the copy, the statement [u] itself holds the pair, with
    the condition it had; a second [Set] of the same field replaces the
    expression and leaves one pair; and every map that was on the heap
    before [Update] is as it was. *)
Theorem Set_writes_the_shared_pairs
  (ts : option TableSelector) (h : dsl.Heap Expr) (f : string)
  (e e' w : Expr) :
  let '(u, h0) := dsl.Update ts h in
  exists h1 h2 u1 u2,
    dsl.Set_ (dsl.Where u w) f e h0 = Some (u1, h1)
    /\ dsl.Set_ u f e' h1 = Some (u2, h2)
    /\ dsl.pairsOf u h0 = ∅
    /\ dsl.pairsOf u h1 = {[ f := e ]}
    /\ dsl.pairsOf u1 h1 = {[ f := e ]}
    /\ dsl.whereExpr u = None /\ dsl.whereExpr u1 = Some w
    /\ dsl.pairsOf u1 h2 = {[ f := e' ]}
    /\ size (dsl.pairsOf u h2) = 1%nat
    /\ (forall a, is_Some (h !! a) -> h2 !! a = h !! a).
Proof.
  pose proof (fresh_address h) as Hfresh.
  unfold dsl.Update, dsl.Set_, dsl.Where, dsl.pairsOf, dsl.Heap in *. simpl.
  generalize dependent (fresh (dom h)). intros a Hfresh.
  do 4 eexists. split; [reflexivity|]. split; [reflexivity|]. simpl.
  repeat (rewrite ?insert_insert_eq, ?lookup_insert_eq; simpl).
  rewrite ?insert_insert_eq, ?insert_empty, ?map_size_singleton.
  repeat split.
  intros b Hb. rewrite lookup_insert_ne; [reflexivity|].
  intros <-. rewrite Hfresh in Hb. by destruct Hb.
Qed.

(** X11.  The guards of [Run], on built statements.  Without a table
    selector [Run] fails with "missing table selector", whatever was set;
    with a selector and no [Set] it fails with "Set method not called",
    with or without a condition; and once a field was set on any copy of
    the statement, [Run] on the statement goes on to the table with that
    pair.  [Set] on a zero statement, whose map is nil, panics. *)
Theorem Run_guards_on_built_statements
  (body : TableSelector -> gmap string Expr -> option Expr -> Tx
          -> option string)
  (ts : TableSelector) (h : dsl.Heap Expr) (f : string) (e w : Expr)
  (tx : Tx) :
  (let '(u, h0) := dsl.Update None h in
   dsl.Run body u h0 tx = Some "missing table selector"%string
   /\ match dsl.Set_ u f e h0 with
      | Some (u1, h1) =>
          dsl.Run body u1 h1 tx = Some "missing table selector"%string
      | None => False
      end)
  /\ (let '(u, h0) := dsl.Update (Some ts) h in
      dsl.Run body u h0 tx = Some "Set method not called"%string
      /\ dsl.Run body (dsl.Where u w) h0 tx
         = Some "Set method not called"%string
      /\ match dsl.Set_ (dsl.Where u w) f e h0 with
         | Some (u1, h1) =>
             dsl.Run body u h1 tx = body ts {[ f := e ]} None tx
             /\ dsl.Run body u1 h1 tx = body ts {[ f := e ]} (Some w) tx
         | None => False
         end)
  /\ dsl.Set_ (dsl.mkUpdateStmt (Some ts) None None) f e h = None.
Proof.
  unfold dsl.Update, dsl.Set_, dsl.Where, dsl.Run, dsl.pairsOf, dsl.Heap in *.
  simpl. generalize (fresh (dom h)). intros a.
  rewrite !lookup_insert_eq. simpl.
  rewrite insert_empty, map_size_singleton, map_size_empty. simpl.
  repeat split.
Qed.

End builder.
